(** * mtcompress: chunked parallel zlib container

    A shallow embedding of [multithreaded_compressor.cpp] and the properties
    of its chunk planner, container format and the two pipeline drivers.

    Modelling conventions.
    - [uint64_t], [int] and [std::streamsize] are integers of [Z] with the
      wrap-around of each conversion written out ([u64], [i32], [i64]).
      The build targets of the source (Linux/macOS, 64 bit) make [size_t],
      [uLong] and [uLongf] 64-bit unsigned, so casts between them and
      [uint64_t] are the identity.
    - A [std::vector<unsigned char>] is a [list byte].  Integers written
      with [reinterpret_cast<const char*>] are laid out little-endian.
    - Exceptions.  The functions named as in the source describe the runs
      in which nothing throws: every [resize], every vector and every
      [std::thread] is granted.  The decompression path is given a second
      time with its exceptions, under the names that end in [_ex]: a
      [resize] or a vector larger than what the [Host] grants (never more
      than [max_size], 2^63-1 bytes) throws, and so does a [std::thread]
      beyond the host's limit.  In [main], [std::stoi] throws on an argument
      that is no [int].  Nothing in the program catches, so the process
      ends in [std::terminate]: status [Aborted].
    - The file system is a finite map from paths to contents.  Every
      operation of the program that touches the outside (stream reads, zlib
      calls, diagnostics on [cerr]) leaves an event in the trace of the
      world; the progress messages on [cout] and the timing are left out.
    - zlib is a parameter: a [Codec] gives [compressBound], [compress2] and
      [uncompress].
    - The worker threads own disjoint slots of the shared vectors and are
      joined before anything is read back, so the fork/join is run in index
      order. *)

From Stdlib Require Import ZArith Lia.
From Stdlib.Strings Require Import Byte Ascii.
From stdpp Require Import base list gmap strings.

Local Open Scope Z_scope.

(** ** Machine integers *)

Definition u64 (z : Z) : Z := z mod 2 ^ 64.
Definition i32 (z : Z) : Z := (z + 2 ^ 31) mod 2 ^ 32 - 2 ^ 31.
Definition i64 (z : Z) : Z := (z + 2 ^ 63) mod 2 ^ 64 - 2 ^ 63.

Definition INT_MAX : Z := 2 ^ 31 - 1.
(** Largest value of [std::streamoff] / [std::streamsize]; also
    [vector<unsigned char>::max_size()]. *)
Definition STREAM_MAX : Z := 2 ^ 63 - 1.

Definition len {A} (l : list A) : Z := Z.of_nat (length l).

(** ** Bytes and the native (little-endian) layout of integers *)

#[global] Instance byte_eq_decision : EqDecision byte := Byte.byte_eq_dec.

Definition byte_of_Z (z : Z) : byte :=
  default x00 (Byte.of_N (Z.to_N (z mod 256))).
Definition Z_of_byte (b : byte) : Z := Z.of_N (Byte.to_N b).

(** The [n] bytes of the object representation of [v]. *)
Fixpoint le_bytes (n : nat) (v : Z) : list byte :=
  match n with
  | O => []
  | S k => byte_of_Z v :: le_bytes k (v / 256)
  end.

(** The integer whose object representation is [bs]. *)
Fixpoint le_value (bs : list byte) : Z :=
  match bs with
  | [] => 0
  | b :: r => Z_of_byte b + 256 * le_value r
  end.

(** ** The world: files, diagnostics, trace *)

Inductive diagnostic :=
| EmptyOrMissingInput
| FailedOpenInput
| CompressionFailed (i : nat)
| FailedOpenOutput
| CannotOpenCompressed
| InvalidHeader
| FailedReadingBlock (i : nat)
| DecompressionFailed (i : nat)
| Usage.

Inductive event :=
| EvRead (n : Z) (got : nat)        (* in.read(_, n) delivered [got] bytes *)
| EvCompress2 (sourceLen : Z)       (* call of zlib's compress2 *)
| EvUncompress (sourceLen : Z)      (* call of zlib's uncompress *)
| EvCerr (d : diagnostic).

Record World := {
  files : gmap string (list byte);
  writable : string → bool;
  trace : list event
}.

Definition M (A : Type) : Type := World → A * World.

#[global] Instance M_ret : MRet M := λ A a w, (a, w).
#[global] Instance M_bind : MBind M :=
  λ A B k m w, let '(a, w') := m w in k a w'.

Definition emit (e : event) : M unit :=
  λ w, (tt, {| files := files w; writable := writable w;
               trace := trace w ++ [e] |}).
Definition cerr (d : diagnostic) : M unit := emit (EvCerr d).

(** *** Input streams *)

Record ifstream := { rest : list byte; good : bool }.

(** [ifstream in(path, ios::binary)] *)
Definition ifstream_open (path : string) : M (option ifstream) :=
  λ w, ((λ b, {| rest := b; good := true |}) <$> files w !! path, w).

(** What [in.read(_, n)] extracts, and the stream afterwards: a stream that
    has failed extracts nothing; a short or negative count sets failbit. *)
Definition extract (s : ifstream) (n : Z) : list byte * ifstream :=
  if good s then
    if n <? 0 then ([], {| rest := rest s; good := false |})
    else if n <=? len (rest s)
         then (take (Z.to_nat n) (rest s),
               {| rest := drop (Z.to_nat n) (rest s); good := true |})
         else (rest s, {| rest := []; good := false |})
  else ([], s).

(** [v.resize(n)] on a byte vector: truncate, or extend with zeros. *)
Definition vresize (n : Z) (v : list byte) : list byte :=
  resize (Z.to_nat n) x00 v.

(** Storing [got] at the front of the buffer [buf]. *)
Definition blit (got buf : list byte) : list byte :=
  take (length buf) (got ++ drop (length got) buf).

(** [in.read(buf.data(), n)]: the buffer afterwards and the stream. *)
Definition ifstream_read (s : ifstream) (buf : list byte) (n : Z)
  : M (list byte * ifstream) :=
  let '(got, s') := extract s n in
  emit (EvRead n (length got));;
  mret (blit got buf, s').

(** [uint64_t file_size(const string&)] *)
Definition file_size (path : string) : M Z :=
  λ w, (match files w !! path with
        | None => 0
        | Some b => u64 (i64 (len b))
        end, w).

(** *** Output streams *)

(** [ofstream out(path, ios::binary | ios::trunc)]; the handle is the path. *)
Definition ofstream_open (path : string) : M (option string) :=
  λ w, if writable w path
       then (Some path, {| files := <[path := []]> (files w);
                           writable := writable w; trace := trace w |})
       else (None, w).

(** [out.write(p, n)] with the [n] bytes [bs] at [p]. *)
Definition ofstream_write (out : string) (bs : list byte) : M unit :=
  λ w, (tt, {| files := alter (λ old, old ++ bs) out (files w);
               writable := writable w; trace := trace w |}).

(** ** Container format *)

Record ChunkMeta := { compressed_size : Z; original_size : Z }.

Definition MAGIC : list byte := [x4d; x54; x5a; x31].
Definition VERSION : Z := 1.

(** ** Chunk planner (compress_file, "determine chunk layout") *)

Definition MIN_CHUNK : Z := 64 * 1024.

(** The pair [(ideal_chunk, nthreads)] after the floor has been applied. *)
Definition chunk_layout (total_size threads_requested : Z) : Z * Z :=
  let nthreads := Z.max 1 threads_requested in
  let ideal_chunk := u64 (total_size + nthreads - 1) / nthreads in
  if ideal_chunk <? MIN_CHUNK then
    let ideal_chunk := Z.min MIN_CHUNK total_size in
    let nthreads :=
      Z.max 1 (i32 (u64 (total_size + ideal_chunk - 1) / ideal_chunk)) in
    (ideal_chunk, nthreads)
  else (ideal_chunk, nthreads).

(** One chunk of the input; [start] is the loop's local of that name. *)
Record Chunk := { start : Z; orig_size : Z; bytes : list byte }.

(** The "read chunks" loop from index [i], with [fuel] iterations left. *)
Fixpoint read_chunks (fuel : nat) (i ideal_chunk total_size : Z)
    (s : ifstream) : M (list Chunk * ifstream) :=
  match fuel with
  | O => mret ([], s)
  | S fuel' =>
      let start := u64 (i * ideal_chunk) in
      if total_size <=? start then mret ([], s)
      else
        let remain := total_size - start in
        let sz := Z.min ideal_chunk remain in
        '(buf, s1) ← ifstream_read s (vresize sz []) (i64 sz);
        '(cs, s2) ← read_chunks fuel' (i + 1) ideal_chunk total_size s1;
        mret ({| start := start; orig_size := sz; bytes := buf |} :: cs, s2)
  end.

(** Layout and reading together, as [compress_file] does them. *)
Definition split_input (total_size threads_requested : Z) (s : ifstream)
  : M (list Chunk * ifstream) :=
  let '(ideal_chunk, nthreads) := chunk_layout total_size threads_requested in
  read_chunks (Z.to_nat nthreads) 0 ideal_chunk total_size s.

(** ** zlib, as a parameter *)

Definition Z_OK : Z := 0.
Definition Z_DATA_ERROR : Z := -3.
Definition Z_MEM_ERROR : Z := -4.
Definition Z_BUF_ERROR : Z := -5.
Definition Z_BEST_COMPRESSION : Z := 9.

(** [compress2 destLen source level] and [uncompress destLen source] give
    the return code, the bytes the call stored at [dest], and the value it
    left in [*destLen]; [destLen] is the capacity of [dest] on entry. *)
Record Codec := {
  compressBound : Z → Z;
  compress2 : Z → list byte → Z → Z * list byte * Z;
  uncompress : Z → list byte → Z * list byte * Z
}.

(** ** Exceptions and the host *)

(** How the process ends: [Exit c] is [return c] from [main]; [Aborted] is
    [std::terminate], called for an exception that nothing catches. *)
Inductive status := Exit (code : Z) | Aborted.

(** The outcome of a call that may throw. *)
Inductive attempt (A : Type) := Returned (a : A) | Thrown.
#[global] Arguments Returned {A} a.
#[global] Arguments Thrown {A}.

(** What the host grants: the largest single allocation, in bytes, and the
    number of threads that can exist at once. *)
Record Host := { alloc_max : Z; thread_max : Z }.

(** Whether a vector of [n] bytes can be had: [std::length_error] above
    [max_size], [std::bad_alloc] above what the host grants. *)
Definition fits (host : Host) (n : Z) : bool :=
  (n <=? alloc_max host) && (n <=? STREAM_MAX).

(** [sizeof(ChunkMeta)] and [sizeof(vector<unsigned char>)]. *)
Definition SIZEOF_CHUNKMETA : Z := 16.
Definition SIZEOF_VECTOR : Z := 24.

Section Pipeline.
Context (cd : Codec).

(** *** Codec adapter *)

Definition compress_chunk (inbuf outbuf : list byte) (level : Z)
  : M (bool * list byte) :=
  let src_len := len inbuf in
  let bound := compressBound cd src_len in
  let outbuf := vresize bound outbuf in
  emit (EvCompress2 src_len);;
  let '(ret, written, bound) := compress2 cd bound inbuf level in
  let outbuf := blit written outbuf in
  if negb (ret =? Z_OK) then mret (false, outbuf)
  else mret (true, vresize bound outbuf).

Definition decompress_chunk (inbuf outbuf : list byte) (expected_size : Z)
  : M (bool * list byte) :=
  let dest_len := expected_size in
  let outbuf := vresize dest_len outbuf in
  emit (EvUncompress (len inbuf));;
  let '(ret, written, dest_len) := uncompress cd dest_len inbuf in
  let outbuf := blit written outbuf in
  if negb (ret =? Z_OK) then mret (false, outbuf)
  else if negb (dest_len =? expected_size) then mret (false, outbuf)
  else mret (true, outbuf).

(** *** Header *)

Fixpoint write_metas (out : string) (metas : list ChunkMeta) : M unit :=
  match metas with
  | [] => mret tt
  | m :: ms =>
      ofstream_write out (le_bytes 8 (compressed_size m));;
      ofstream_write out (le_bytes 8 (original_size m));;
      write_metas out ms
  end.

Definition write_header (out : string) (metas : list ChunkMeta) : M unit :=
  ofstream_write out MAGIC;;
  let ver := VERSION in
  ofstream_write out (le_bytes 4 ver);;
  let cnt := len metas in
  ofstream_write out (le_bytes 8 cnt);;
  write_metas out metas.

(** The metadata loop of [read_header]; [None] is [return false]. *)
Fixpoint read_metas (fuel : nat) (s : ifstream)
  : M (option (list ChunkMeta) * ifstream) :=
  match fuel with
  | O => mret (Some [], s)
  | S fuel' =>
      '(csz, s1) ← ifstream_read s (replicate 8 x00) 8;
      if negb (good s1) then mret (None, s1) else
      '(osz, s2) ← ifstream_read s1 (replicate 8 x00) 8;
      if negb (good s2) then mret (None, s2) else
      '(r, s3) ← read_metas fuel' s2;
      mret ((λ ms, {| compressed_size := le_value csz;
                      original_size := le_value osz |} :: ms) <$> r, s3)
  end.

Definition read_header (s : ifstream)
  : M (option (list ChunkMeta) * ifstream) :=
  '(magic, s1) ← ifstream_read s (replicate 4 x00) 4;
  if negb (good s1) then mret (None, s1) else
  if negb (bool_decide (magic = MAGIC)) then mret (None, s1) else
  '(ver, s2) ← ifstream_read s1 (replicate 4 x00) 4;
  if negb (good s2) then mret (None, s2) else
  if negb (le_value ver =? VERSION) then mret (None, s2) else
  '(cnt, s3) ← ifstream_read s2 (replicate 8 x00) 8;
  if negb (good s3) then mret (None, s3) else
  read_metas (Z.to_nat (le_value cnt)) s3.

(** *** Fork/join over the chunks *)

(** One thread per job, then [join] on all of them: task [i] gets job [i]
    and owns slot [i] of the result. *)
Fixpoint fork_join {A B} (task : nat → A → M B) (i : nat) (jobs : list A)
  : M (list B) :=
  match jobs with
  | [] => mret []
  | j :: js =>
      r ← task i j;
      rs ← fork_join task (S i) js;
      mret (r :: rs)
  end.

(** The body of a compression thread: what it leaves in [compressed[i]]
    and in [metas[i]]. *)
Definition compress_task (i : nat) (chunk : Chunk)
  : M (list byte * ChunkMeta) :=
  '(ok, out) ← compress_chunk (bytes chunk) [] Z_BEST_COMPRESSION;
  if negb ok then
    cerr (CompressionFailed i);;
    mret (out, {| compressed_size := 0;
                  original_size := len (bytes chunk) |})
  else
    mret (out, {| compressed_size := len out;
                  original_size := len (bytes chunk) |}).

(** The body of a decompression thread, on (comp_blocks[i], metas[i]):
    what it leaves in [decompressed[i]]. *)
Definition decompress_task (i : nat) (job : list byte * ChunkMeta)
  : M (list byte) :=
  '(ok, out) ← decompress_chunk job.1 [] (original_size job.2);
  if negb ok then cerr (DecompressionFailed i);; mret out
  else mret out.

(** *** Drivers *)

(** The loops that write the blocks: each [out.write] is given the whole
    vector (its size always fits [streamsize]). *)
Fixpoint write_blocks (out : string) (blocks : list (list byte)) : M unit :=
  match blocks with
  | [] => mret tt
  | b :: bs => ofstream_write out b;; write_blocks out bs
  end.

Definition compress_file (inpath outpath : string) (threads_requested : Z)
  : M Z :=
  total_size ← file_size inpath;
  if total_size =? 0 then cerr EmptyOrMissingInput;; mret 1 else
  in_ ← ifstream_open inpath;
  match in_ with
  | None => cerr FailedOpenInput;; mret 1
  | Some in_ =>
      '(chunks, _) ← split_input total_size threads_requested in_;
      results ← fork_join compress_task 0 chunks;
      let compressed := results.*1 in
      let metas := results.*2 in
      out ← ofstream_open outpath;
      match out with
      | None => cerr FailedOpenOutput;; mret 1
      | Some out =>
          write_header out metas;;
          write_blocks out compressed;;
          mret 0
      end
  end.

(** The loop that loads the compressed blocks; [None] is [return 1]. *)
Fixpoint read_blocks (i : nat) (metas : list ChunkMeta) (s : ifstream)
  : M (option (list (list byte)) * ifstream) :=
  match metas with
  | [] => mret (Some [], s)
  | m :: ms =>
      '(blk, s1) ← ifstream_read s (vresize (compressed_size m) [])
                                  (i64 (compressed_size m));
      if negb (good s1) then cerr (FailedReadingBlock i);; mret (None, s1)
      else
        '(r, s2) ← read_blocks (S i) ms s1;
        mret ((λ bs, blk :: bs) <$> r, s2)
  end.

Definition decompress_file (inpath outpath : string) (threads_requested : Z)
  : M Z :=
  in_ ← ifstream_open inpath;
  match in_ with
  | None => cerr CannotOpenCompressed;; mret 1
  | Some in_ =>
      '(hdr, in_) ← read_header in_;
      match hdr with
      | None => cerr InvalidHeader;; mret 1
      | Some metas =>
          '(blocks, _) ← read_blocks 0 metas in_;
          match blocks with
          | None => mret 1
          | Some comp_blocks =>
              decompressed ←
                fork_join decompress_task 0 (zip comp_blocks metas);
              out ← ofstream_open outpath;
              match out with
              | None => cerr FailedOpenOutput;; mret 1
              | Some out => write_blocks out decompressed;; mret 0
              end
          end
      end
  end.

(** *** The decompression path with its exceptions *)

Context (host : Host).

(** [decompress_chunk]: [outbuf.resize(dest_len)] is its first effect and
    may throw; past it the function is the one above. *)
Definition decompress_chunk_ex (inbuf outbuf : list byte) (expected_size : Z)
  : M (attempt (bool * list byte)) :=
  let dest_len := expected_size in
  if negb (fits host dest_len) then mret Thrown
  else r ← decompress_chunk inbuf outbuf expected_size; mret (Returned r).

(** [read_header]: [metas.resize(cnt)] may throw, after the count has been
    read and before the first record is. *)
Definition read_header_ex (s : ifstream)
  : M (attempt (option (list ChunkMeta)) * ifstream) :=
  '(magic, s1) ← ifstream_read s (replicate 4 x00) 4;
  if negb (good s1) then mret (Returned None, s1) else
  if negb (bool_decide (magic = MAGIC)) then mret (Returned None, s1) else
  '(ver, s2) ← ifstream_read s1 (replicate 4 x00) 4;
  if negb (good s2) then mret (Returned None, s2) else
  if negb (le_value ver =? VERSION) then mret (Returned None, s2) else
  '(cnt, s3) ← ifstream_read s2 (replicate 8 x00) 8;
  if negb (good s3) then mret (Returned None, s3) else
  if negb (fits host (SIZEOF_CHUNKMETA * le_value cnt)) then mret (Thrown, s3)
  else
    '(r, s4) ← read_metas (Z.to_nat (le_value cnt)) s3;
    mret (Returned r, s4).

(** The loop that loads the compressed blocks: [comp_blocks[i].resize] may
    throw, before the read of block [i]. *)
Fixpoint read_blocks_ex (i : nat) (metas : list ChunkMeta) (s : ifstream)
  : M (attempt (option (list (list byte))) * ifstream) :=
  match metas with
  | [] => mret (Returned (Some []), s)
  | m :: ms =>
      if negb (fits host (compressed_size m)) then mret (Thrown, s) else
      '(blk, s1) ← ifstream_read s (vresize (compressed_size m) [])
                                  (i64 (compressed_size m));
      if negb (good s1)
      then cerr (FailedReadingBlock i);; mret (Returned None, s1)
      else
        '(r, s2) ← read_blocks_ex (S i) ms s1;
        mret (match r with
              | Returned r => Returned ((λ bs, blk :: bs) <$> r)
              | Thrown => Thrown
              end, s2)
  end.

(** [vector<vector<unsigned char>> comp_blocks(chunk_count)], which may
    throw, and the loop that fills it. *)
Definition load_blocks_ex (metas : list ChunkMeta) (s : ifstream)
  : M (attempt (option (list (list byte))) * ifstream) :=
  let chunk_count := len metas in
  if negb (fits host (SIZEOF_VECTOR * chunk_count)) then mret (Thrown, s)
  else read_blocks_ex 0 metas s.

(** The body of a decompression thread; an exception in it leaves the
    thread. *)
Definition decompress_task_ex (i : nat) (job : list byte * ChunkMeta)
  : M (attempt (list byte)) :=
  r ← decompress_chunk_ex job.1 [] (original_size job.2);
  match r with
  | Thrown => mret Thrown
  | Returned (ok, out) =>
      if negb ok then cerr (DecompressionFailed i);; mret (Returned out)
      else mret (Returned out)
  end.

(** One thread per job: [workers.emplace_back] throws when the host starts
    no further thread, and an exception that leaves a thread ends the
    process; in both cases [Thrown], and no later job is run. *)
Fixpoint fork_join_ex {A B} (task : nat → A → M (attempt B)) (i : nat)
    (jobs : list A) : M (attempt (list B)) :=
  match jobs with
  | [] => mret (Returned [])
  | j :: js =>
      if thread_max host <=? Z.of_nat i then mret Thrown else
      r ← task i j;
      match r with
      | Thrown => mret Thrown
      | Returned r =>
          rs ← fork_join_ex task (S i) js;
          mret (match rs with
                | Returned rs => Returned (r :: rs)
                | Thrown => Thrown
                end)
      end
  end.

Definition decompress_file_ex (inpath outpath : string)
    (threads_requested : Z) : M status :=
  in_ ← ifstream_open inpath;
  match in_ with
  | None => cerr CannotOpenCompressed;; mret (Exit 1)
  | Some in_ =>
      '(hdr, in_) ← read_header_ex in_;
      match hdr with
      | Thrown => mret Aborted
      | Returned None => cerr InvalidHeader;; mret (Exit 1)
      | Returned (Some metas) =>
          '(blocks, _) ← load_blocks_ex metas in_;
          match blocks with
          | Thrown => mret Aborted
          | Returned None => mret (Exit 1)
          | Returned (Some comp_blocks) =>
              decompressed ←
                fork_join_ex decompress_task_ex 0 (zip comp_blocks metas);
              match decompressed with
              | Thrown => mret Aborted
              | Returned decompressed =>
                  out ← ofstream_open outpath;
                  match out with
                  | None => cerr FailedOpenOutput;; mret (Exit 1)
                  | Some out =>
                      write_blocks out decompressed;; mret (Exit 0)
                  end
              end
          end
      end
  end.

(** [main].  [stoi] is [std::stoi] on [argv[4]]: [None] where it throws
    [std::invalid_argument] or [std::out_of_range].  It is called before
    the mode is looked at. *)
Context (stoi : string → option Z).

Definition main (argv : list string) : M status :=
  match argv with
  | _ :: mode :: in_ :: out :: a4 :: _ =>
      match stoi a4 with
      | None => mret Aborted
      | Some threads =>
          let threads := if threads <=? 0 then 1 else threads in
          if bool_decide (mode = "c"%string)
          then res ← compress_file in_ out threads; mret (Exit res)
          else if bool_decide (mode = "d"%string)
               then decompress_file_ex in_ out threads
               else cerr Usage;; mret (Exit 1)
      end
  | _ => cerr Usage;; mret (Exit 1)
  end.

End Pipeline.

(** ** Vocabulary of the properties *)

Definition range (c : Chunk) : Z * Z := (start c, orig_size c).

Definition stream_of (b : list byte) : ifstream := {| rest := b; good := true |}.

(** A chain of ranges that starts at [from], has no gap and no overlap, no
    empty range, and ends exactly at [to]. *)
Fixpoint tiles (from : Z) (rs : list (Z * Z)) (to : Z) : Prop :=
  match rs with
  | [] => from = to
  | (st, sz) :: r => st = from ∧ 0 < sz ∧ tiles (from + sz) r to
  end.

(** The ranges are a partition of the file in strides. *)
Definition partitions_input (total stride : Z) (rs : list (Z * Z)) : Prop :=
  tiles 0 rs total
  ∧ (1 ≤ length rs)%nat
  ∧ Forall (λ r, 0 ≤ r.1 ∧ r.1 < total ∧ r.1 + r.2 ≤ total) rs
  ∧ ∀ (k : nat) r, rs !! k = Some r →
      r.2 ≤ stride ∧ ((S k < length rs)%nat → r.2 = stride).

(** The ranges [read_chunks] walks through: its loop with the reads removed. *)
Fixpoint layout (fuel : nat) (i ideal_chunk total_size : Z) : list (Z * Z) :=
  match fuel with
  | O => []
  | S fuel' =>
      let start := u64 (i * ideal_chunk) in
      if total_size <=? start then []
      else (start, Z.min ideal_chunk (total_size - start))
             :: layout fuel' (i + 1) ideal_chunk total_size
  end.

(** Rounded-up quotient, as in the description of the planner. *)
Definition ceil_div (a b : Z) : Z :=
  a / b + (if a mod b =? 0 then 0 else 1).

(** The planner's rule: the stride is the rounded-up share of each thread
    unless that falls below the floor, in which case the stride is the floor
    (or the whole file when it is smaller) and the chunk count follows from
    the stride. *)
Definition planner_rule (total p : Z) (chunks : list Chunk) : Prop :=
  let n := Z.max 1 p in
  (MIN_CHUNK ≤ ceil_div total n →
     chunk_layout total p = (ceil_div total n, n))
  ∧ (ceil_div total n < MIN_CHUNK →
       let ideal := Z.min MIN_CHUNK total in
       chunk_layout total p = (ideal, ceil_div total ideal)
       ∧ len chunks = ceil_div total ideal)
  ∧ (total < MIN_CHUNK → range <$> chunks = [(0, total)]).

(** The same world with more events in its trace. *)
Definition logged (w : World) (evs : list event) : World :=
  {| files := files w; writable := writable w; trace := trace w ++ evs |}.

(** The same world with [bs] appended to the file [out]. *)
Definition appended (w : World) (out : string) (bs : list byte) : World :=
  {| files := alter (λ old, old ++ bs) out (files w);
     writable := writable w; trace := trace w |}.

(** Bytes delivered by the stream reads of a trace. *)
Fixpoint bytes_read (evs : list event) : nat :=
  match evs with
  | [] => 0
  | EvRead _ got :: r => got + bytes_read r
  | _ :: r => bytes_read r
  end.

(** Number of zlib calls in a trace. *)
Fixpoint codec_calls (evs : list event) : nat :=
  match evs with
  | [] => 0
  | EvCompress2 _ :: r | EvUncompress _ :: r => S (codec_calls r)
  | _ :: r => codec_calls r
  end.

Definition world0 (fs : gmap string (list byte)) : World :=
  {| files := fs; writable := λ _, true; trace := [] |}.

(** What a computation returns and what it logs, observed in an empty
    world. *)
Definition value_of {A} (m : M A) : A := (m (world0 ∅)).1.
Definition events_of {A} (m : M A) : list event := trace (m (world0 ∅)).2.

(** A computation that only adds to the trace, and whose result and events
    do not depend on the world it runs in. *)
Definition logger {A} (m : M A) : Prop :=
  ∀ w, m w = (value_of m, logged w (events_of m)).

(** A logger that does not call zlib. *)
Definition quiet {A} (m : M A) : Prop :=
  logger m ∧ codec_calls (events_of m) = 0%nat.

(** The container layout: tag, version, count, metadata records. *)
Definition meta_bytes (m : ChunkMeta) : list byte :=
  le_bytes 8 (compressed_size m) ++ le_bytes 8 (original_size m).

Definition header_bytes (metas : list ChunkMeta) : list byte :=
  MAGIC ++ le_bytes 4 VERSION ++ le_bytes 8 (len metas)
    ++ concat (meta_bytes <$> metas).

Definition total_original (metas : list ChunkMeta) : Z :=
  foldr (λ m acc, original_size m + acc) 0 metas.

Definition total_compressed (metas : list ChunkMeta) : Z :=
  foldr (λ m acc, compressed_size m + acc) 0 metas.

(** Whether zlib's [compress2] succeeds on a chunk, called as
    [compress_chunk] calls it. *)
Definition deflates (cd : Codec) (c : Chunk) : bool :=
  (compress2 cd (compressBound cd (len (bytes c))) (bytes c)
             Z_BEST_COMPRESSION).1.1 =? Z_OK.

(** Whether [decompress_chunk] gets from zlib's [uncompress] both [Z_OK]
    and the expected length, on the block and metadata of a job. *)
Definition inflates (cd : Codec) (job : list byte * ChunkMeta) : bool :=
  let r := uncompress cd (original_size job.2) job.1 in
  (r.1.1 =? Z_OK) && (r.2 =? original_size job.2).

(** Whether the workers of a decompression all start and none throws: the
    host grants one thread per chunk and every declared original size. *)
Definition tasks_start (host : Host) (metas : list ChunkMeta) : bool :=
  (len metas <=? Z.max 0 (thread_max host))
  && forallb (λ m, fits host (original_size m)) metas.

(** Whether the loads of a decompression throw nothing: the host grants
    the vector of records, the vector of blocks and every declared
    compressed size. *)
Definition container_fits (host : Host) (metas : list ChunkMeta) : bool :=
  fits host (SIZEOF_CHUNKMETA * len metas)
  && fits host (SIZEOF_VECTOR * len metas)
  && forallb (λ m, fits host (compressed_size m)) metas.

(** The same for the workers from index [i] on, over their jobs. *)
Definition workers_start (host : Host) (i : nat)
    (jobs : list (list byte * ChunkMeta)) : Prop :=
  Z.of_nat i + len jobs ≤ Z.max 0 (thread_max host)
  ∧ Forall (λ j, fits host (original_size j.2) = true) jobs.

(** Metadata that fits the 64-bit fields of the header. *)
Definition meta_ok (m : ChunkMeta) : Prop :=
  0 ≤ compressed_size m < 2 ^ 64 ∧ 0 ≤ original_size m < 2 ^ 64.

(** The round-trip contract of the deflate primitive: given a destination
    of [compressBound] bytes, [compress2] succeeds, reports the length of
    what it stored, which fits the destination and a vector; given a
    destination of the original length, [uncompress] succeeds on that
    output, stores the original bytes and reports their length. *)
Definition codec_roundtrip (cd : Codec) : Prop :=
  ∀ src level, len src ≤ STREAM_MAX →
    ∃ c, compress2 cd (compressBound cd (len src)) src level = (Z_OK, c, len c)
       ∧ len c ≤ compressBound cd (len src)
       ∧ len c ≤ STREAM_MAX
       ∧ uncompress cd (len src) c = (Z_OK, src, len src).

(** ** Model codecs and hosts *)

(** A codec that stores its input unchanged, with zlib's slack of 13 bytes
    in the bound. *)
Definition stored_codec : Codec := {|
  compressBound n := n + 13;
  compress2 destLen source level :=
    if len source <=? destLen then (Z_OK, source, len source)
    else (Z_BUF_ERROR, [], 0);
  uncompress destLen source :=
    if len source <=? destLen then (Z_OK, source, len source)
    else (Z_BUF_ERROR, take (Z.to_nat destLen) source, destLen)
|}.

(** A codec whose streams start with a header byte, as zlib's do: a block
    without it is rejected with [Z_DATA_ERROR] and nothing is stored. *)
Definition framed_codec : Codec := {|
  compressBound n := n + 13;
  compress2 destLen source level :=
    if len source + 1 <=? destLen then (Z_OK, x78 :: source, len source + 1)
    else (Z_BUF_ERROR, [], 0);
  uncompress destLen source :=
    match source with
    | x78 :: body =>
        if len body <=? destLen then (Z_OK, body, len body)
        else (Z_BUF_ERROR, take (Z.to_nat destLen) body, destLen)
    | _ => (Z_DATA_ERROR, [], 0)
    end
|}.

(** A codec out of memory: every call fails and stores nothing. *)
Definition failing_codec : Codec := {|
  compressBound n := n + 13;
  compress2 destLen source level := (Z_MEM_ERROR, [], 0);
  uncompress destLen source := (Z_MEM_ERROR, [], 0)
|}.

(** A host that grants vectors up to 1 GiB and 1024 threads. *)
Definition small_host : Host := {| alloc_max := 2 ^ 30; thread_max := 1024 |}.

(** A host that grants every vector up to [max_size]. *)
Definition large_host : Host :=
  {| alloc_max := STREAM_MAX; thread_max := 2 ^ 20 |}.

(** ** A model of [std::stoi] *)

Definition is_space (c : Ascii.ascii) : bool :=
  let n := Ascii.N_of_ascii c in ((9 <=? n) && (n <=? 13) || (n =? 32))%N.

Definition digit_of (c : Ascii.ascii) : option Z :=
  let n := Ascii.N_of_ascii c in
  if ((48 <=? n) && (n <=? 57))%N then Some (Z.of_N n - 48) else None.

Fixpoint skip_space (s : string) : string :=
  match s with
  | String c r => if is_space c then skip_space r else s
  | EmptyString => s
  end.

(** The value of the longest prefix of decimal digits; [acc] is [None]
    until a digit has been seen. *)
Fixpoint digits (acc : option Z) (s : string) : option Z :=
  match s with
  | String c r =>
      match digit_of c with
      | Some d => digits (Some (10 * default 0 acc + d)) r
      | None => acc
      end
  | EmptyString => acc
  end.

(** [std::stoi] in base 10: leading white space, an optional sign, then
    digits up to the first character that is none; it throws when there is
    no digit and when the value is no [int]. *)
Definition stoi_decimal (s : string) : option Z :=
  let s := skip_space s in
  let '(neg, s) :=
    match s with
    | String "-"%char r => (true, r)
    | String "+"%char r => (false, r)
    | _ => (false, s)
    end in
  match digits None s with
  | None => None
  | Some v =>
      let v := if neg : bool then - v else v in
      if (- 2 ^ 31 <=? v) && (v <=? INT_MAX) then Some v else None
  end.

(** * Properties *)

#[global] Arguments u64 : simpl never.
#[global] Arguments i32 : simpl never.
#[global] Arguments i64 : simpl never.
#[global] Arguments len : simpl never.
#[global] Arguments vresize : simpl never.
#[global] Arguments blit : simpl never.
#[global] Arguments extract : simpl never.
#[global] Arguments le_bytes : simpl never.
#[global] Arguments le_value : simpl never.

Ltac run_m :=
  unfold mbind, M_bind, mret, M_ret, emit, cerr; cbn -[Z.mul Z.add Z.sub Z.pow].

(** ** Integer conversions that do not wrap *)

Lemma u64_small z : 0 ≤ z < 2 ^ 64 → u64 z = z.
Proof. intros H. unfold u64. apply Z.mod_small. lia. Qed.

Lemma i32_small z : - 2 ^ 31 ≤ z < 2 ^ 31 → i32 z = z.
Proof. intros H. unfold i32. rewrite Z.mod_small; lia. Qed.

Lemma i64_small z : - 2 ^ 63 ≤ z < 2 ^ 63 → i64 z = z.
Proof. intros H. unfold i64. rewrite Z.mod_small; lia. Qed.

Lemma len_nonneg {A} (l : list A) : 0 ≤ len l.
Proof. unfold len. lia. Qed.

Lemma len_app {A} (l k : list A) : len (l ++ k) = len l + len k.
Proof. unfold len. rewrite length_app. lia. Qed.

(** [(a + b - 1) / b] is the least [c] with [a ≤ c * b]. *)
Lemma ceil_div_spec a b :
  0 < b → (((a + b - 1) / b) - 1) * b < a ≤ ((a + b - 1) / b) * b.
Proof.
  intros Hb.
  pose proof (Z.div_mod (a + b - 1) b ltac:(lia)) as Hdm.
  pose proof (Z.mod_pos_bound (a + b - 1) b Hb) as Hm.
  nia.
Qed.

Lemma ceil_div_unique a b c :
  0 < b → (c - 1) * b < a ≤ c * b → (a + b - 1) / b = c.
Proof.
  intros Hb Hc. pose proof (ceil_div_spec a b Hb) as Hs.
  set (d := (a + b - 1) / b) in *. clearbody d. nia.
Qed.

(** ** The chunk loop without the stream *)

Lemma read_chunks_ranges fuel : ∀ i ideal total s w,
  range <$> (read_chunks fuel i ideal total s w).1.1 = layout fuel i ideal total.
Proof.
  induction fuel as [|fuel IH]; intros i ideal total s w; [done|].
  cbn [read_chunks layout].
  destruct (total <=? u64 (i * ideal)); [done|].
  run_m. unfold ifstream_read. destruct (extract s _) as [got s1]. run_m.
  match goal with
  | |- context [read_chunks fuel ?a ?b ?c ?d ?e] =>
      specialize (IH a b c d e);
      destruct (read_chunks fuel a b c d e) as [[cs s2] w2]
  end.
  cbn in *. by f_equal.
Qed.

Section Layout.
Context (ideal total : Z).
Hypothesis ideal_pos : 0 < ideal.
Hypothesis ideal_le : ideal ≤ total.
Hypothesis no_wrap : total + ideal ≤ 2 ^ 64.

Lemma layout_past fuel i :
  total ≤ i * ideal < 2 ^ 64 → layout fuel i ideal total = [].
Proof.
  intros H. destruct fuel as [|fuel]; [done|]. cbn [layout].
  rewrite u64_small by lia.
  destruct (Z.leb_spec total (i * ideal)); [done | lia].
Qed.

Lemma layout_step fuel i :
  0 ≤ i → i * ideal < total →
  layout (S fuel) i ideal total =
    (i * ideal, Z.min ideal (total - i * ideal))
      :: layout fuel (i + 1) ideal total.
Proof.
  intros Hi H. cbn [layout]. rewrite u64_small by nia.
  destruct (Z.leb_spec total (i * ideal)); [lia | done].
Qed.

Lemma layout_tiles fuel : ∀ i,
  0 ≤ i → i * ideal ≤ total → total ≤ (i + Z.of_nat fuel) * ideal →
  tiles (i * ideal) (layout fuel i ideal total) total.
Proof.
  induction fuel as [|fuel IH]; intros i Hi Hlo Hhi.
  - cbn. lia.
  - destruct (Z.eq_dec (i * ideal) total) as [Heq|Hne].
    + rewrite layout_past by lia. cbn. done.
    + rewrite layout_step by lia. cbn [tiles].
      split; [done|]. split; [lia|].
      destruct (Z.le_gt_cases ((i + 1) * ideal) total) as [Hn|Hn].
      * replace (i * ideal + Z.min ideal (total - i * ideal))
          with ((i + 1) * ideal) by lia.
        apply IH; lia.
      * rewrite layout_past by lia. cbn. lia.
Qed.

Lemma layout_in_range fuel : ∀ i,
  Forall (λ r, 0 ≤ r.1 ∧ r.1 < total ∧ 0 < r.2 ∧ r.1 + r.2 ≤ total ∧ r.2 ≤ ideal)
         (layout fuel i ideal total).
Proof.
  induction fuel as [|fuel IH]; intros i; [constructor|].
  cbn [layout].
  pose proof (Z.mod_pos_bound (i * ideal) (2 ^ 64) ltac:(lia)) as Hm.
  fold (u64 (i * ideal)) in Hm.
  destruct (Z.leb_spec total (u64 (i * ideal))); [constructor|].
  constructor; [cbn; lia | apply IH].
Qed.

Lemma layout_length fuel : ∀ i,
  0 ≤ i → (i + Z.of_nat fuel) * ideal < total + ideal →
  length (layout fuel i ideal total) = fuel.
Proof.
  induction fuel as [|fuel IH]; intros i Hi H; [done|].
  rewrite layout_step by nia. cbn [length]. f_equal. apply IH; lia.
Qed.

Lemma layout_stride fuel : ∀ i (k : nat) r,
  0 ≤ i → i * ideal < total + ideal →
  layout fuel i ideal total !! k = Some r →
  (S k < length (layout fuel i ideal total))%nat → r.2 = ideal.
Proof.
  induction fuel as [|fuel IH]; intros i k r Hi Hw; [done|].
  destruct (Z.le_gt_cases total (i * ideal)) as [Hn|Hn].
  { rewrite layout_past by lia. done. }
  rewrite layout_step by lia.
  destruct k as [|k]; cbn [lookup list_lookup length].
  - intros [= <-] Hlen. cbn.
    destruct (Z.le_gt_cases total ((i + 1) * ideal)) as [Hp|Hp].
    + rewrite layout_past in Hlen by lia. cbn in Hlen. lia.
    + lia.
  - intros Hk Hlen. apply (IH (i + 1) k r); [lia | lia | done | lia].
Qed.

End Layout.

(** ** What the planner settles on *)

Lemma ceil_div_eq a b : 0 < b → ceil_div a b = (a + b - 1) / b.
Proof.
  intros Hb. symmetry. apply ceil_div_unique; [done|]. unfold ceil_div.
  pose proof (Z.div_mod a b ltac:(lia)) as Hdm.
  pose proof (Z.mod_pos_bound a b Hb) as Hm.
  destruct (Z.eqb_spec (a mod b) 0); nia.
Qed.

Lemma chunk_layout_spec total p :
  0 < total ≤ STREAM_MAX → p ≤ INT_MAX →
  let n := Z.max 1 p in
  chunk_layout total p =
    if ceil_div total n <? MIN_CHUNK
    then (Z.min MIN_CHUNK total, ceil_div total (Z.min MIN_CHUNK total))
    else (ceil_div total n, n).
Proof.
  intros Ht Hp n. unfold STREAM_MAX, INT_MAX in *.
  assert (1 ≤ n < 2 ^ 31) as Hn by (unfold n; lia).
  unfold chunk_layout, MIN_CHUNK. fold n. change (64 * 1024) with 65536.
  rewrite !ceil_div_eq by lia.
  rewrite (u64_small (total + n - 1)) by lia.
  pose proof (ceil_div_spec total n ltac:(lia)) as Hc.
  set (c := (total + n - 1) / n) in *. clearbody c.
  destruct (Z.ltb_spec c 65536) as [Hf|Hf]; [|done].
  set (m := Z.min 65536 total).
  assert (0 < m ≤ 65536) as Hm by (unfold m; lia).
  rewrite (u64_small (total + m - 1)) by lia.
  pose proof (ceil_div_spec total m ltac:(lia)) as Hk.
  set (k := (total + m - 1) / m) in *. clearbody k.
  assert (1 ≤ k < 2 ^ 31) as Hk'.
  { destruct (Z.le_gt_cases total 65536).
    - assert (m = total) by (unfold m; lia). nia.
    - assert (m = 65536) as Hm' by (unfold m; lia). rewrite Hm' in Hk.
      assert (c * n ≤ 65535 * n) by (apply Z.mul_le_mono_nonneg_r; lia).
      lia. }
  rewrite i32_small by lia. f_equal. lia.
Qed.

(** The stride is positive and at most the file, and the iteration count
    is enough to reach the end of the file. *)
Lemma chunk_layout_ok total p :
  0 < total ≤ STREAM_MAX → p ≤ INT_MAX →
  ∃ ideal k, chunk_layout total p = (ideal, k)
    ∧ 0 < ideal ≤ total ∧ 1 ≤ k ∧ total ≤ k * ideal.
Proof.
  intros Ht Hp. rewrite chunk_layout_spec by done.
  assert (1 ≤ Z.max 1 p) as Hn by lia.
  set (n := Z.max 1 p) in *. clearbody n.
  unfold MIN_CHUNK. change (64 * 1024) with 65536.
  destruct (Z.ltb_spec (ceil_div total n) 65536) as [Hf|Hf].
  - eexists _, _. split; [done|].
    rewrite ceil_div_eq by lia.
    pose proof (ceil_div_spec total (Z.min 65536 total) ltac:(lia)). nia.
  - eexists _, _. split; [done|].
    rewrite ceil_div_eq in * by lia.
    pose proof (ceil_div_spec total n ltac:(lia)). nia.
Qed.

(** C2. For a file of [total] > 0 bytes (a [streamoff]) and any requested
    parallelism (an [int]), the byte ranges of the chunks the planner emits
    partition [0, total): they follow each other in index order without gap
    or overlap from 0 to [total], none starts at or after [total] or reaches
    past it, there is at least one, and all but the last have the length of
    the stride. *)
Theorem planner_partitions total p s w :
  0 < total ≤ STREAM_MAX → p ≤ INT_MAX →
  partitions_input total (chunk_layout total p).1
                   (range <$> (split_input total p s w).1.1).
Proof.
  intros Ht Hp. unfold split_input.
  destruct (chunk_layout_ok total p Ht Hp) as (ideal & k & -> & Hi & Hk & Hcov).
  cbn [fst]. rewrite read_chunks_ranges.
  assert (total + ideal ≤ 2 ^ 64) as Hw by (unfold STREAM_MAX in Ht; lia).
  split; [|split; [|split]].
  - apply (layout_tiles ideal total) with (i := 0); lia.
  - destruct (Z.to_nat k) as [|f] eqn:E; [lia|].
    rewrite (layout_step ideal total) by lia. cbn. lia.
  - eapply Forall_impl; [apply (layout_in_range ideal total); lia|].
    cbn. intros r Hr. lia.
  - intros j r Hj. split.
    + assert (Forall (λ r, 0 ≤ r.1 ∧ r.1 < total ∧ 0 < r.2
                           ∧ r.1 + r.2 ≤ total ∧ r.2 ≤ ideal)
                (layout (Z.to_nat k) 0 ideal total)) as HF
        by (apply layout_in_range; lia).
      rewrite Forall_lookup in HF. specialize (HF j r Hj). cbn in HF. lia.
    + intros Hlen.
      eapply (layout_stride ideal total); [..|exact Hj|exact Hlen]; lia.
Qed.

Lemma planner_partitions_witness :
  0 < 200000 ≤ STREAM_MAX ∧ 4 ≤ INT_MAX ∧
  partitions_input 200000 (chunk_layout 200000 4).1
    (range <$> (split_input 200000 4 (stream_of []) (world0 ∅)).1.1).
Proof.
  assert (0 < 200000 ≤ STREAM_MAX) as Ht by (unfold STREAM_MAX; lia).
  assert (4 ≤ INT_MAX) as Hp by (unfold INT_MAX; lia).
  split; [exact Ht|]. split; [exact Hp|].
  exact (planner_partitions 200000 4 (stream_of []) (world0 ∅) Ht Hp).
Defined.

(** C3. For a file of [total] > 0 bytes and requested parallelism [p]
    (clamped to at least 1), the stride is ceil(total / p); when that is
    below 64 KiB the stride becomes min(64 KiB, total) and the number of
    chunks ceil(total / stride); a file smaller than 64 KiB is one chunk,
    the whole file, whatever the parallelism. *)
Theorem planner_floor total p s w :
  0 < total ≤ STREAM_MAX → p ≤ INT_MAX →
  planner_rule total p (split_input total p s w).1.1.
Proof.
  intros Ht Hp. unfold planner_rule.
  pose proof (chunk_layout_spec total p Ht Hp) as Hspec. cbn zeta in Hspec.
  assert (1 ≤ Z.max 1 p) as Hn by lia.
  set (n := Z.max 1 p) in *. clearbody n. cbn zeta.
  assert (ceil_div total n ≤ total) as Hc.
  { rewrite ceil_div_eq by lia.
    pose proof (ceil_div_spec total n ltac:(lia)). nia. }
  assert (chunk_layout total p =
            (Z.min MIN_CHUNK total, ceil_div total (Z.min MIN_CHUNK total)) →
          range <$> (split_input total p s w).1.1 =
            layout (Z.to_nat (ceil_div total (Z.min MIN_CHUNK total))) 0
                   (Z.min MIN_CHUNK total) total) as Hranges.
  { intros E. unfold split_input. rewrite E. apply read_chunks_ranges. }
  unfold MIN_CHUNK in *. change (64 * 1024) with 65536 in *.
  unfold STREAM_MAX in Ht.
  split; [|split].
  - intros Hge. rewrite Hspec.
    destruct (Z.ltb_spec (ceil_div total n) 65536); [lia | done].
  - intros Hlt.
    destruct (Z.ltb_spec (ceil_div total n) 65536); [|lia].
    split; [done|]. specialize (Hranges Hspec).
    unfold len. rewrite <- (length_fmap range), Hranges.
    set (m := Z.min 65536 total) in *.
    assert (0 < m ≤ total) as Hm by (unfold m; lia).
    pose proof (ceil_div_spec total m ltac:(lia)) as Hk.
    rewrite <- ceil_div_eq in Hk by lia.
    rewrite (layout_length m total); nia.
  - intros Hsmall.
    destruct (Z.ltb_spec (ceil_div total n) 65536); [|lia].
    rewrite (Hranges Hspec).
    replace (Z.min 65536 total) with total by lia.
    replace (ceil_div total total) with 1.
    2:{ rewrite ceil_div_eq by lia. symmetry. apply ceil_div_unique; lia. }
    change (Z.to_nat 1) with 1%nat.
    rewrite (layout_step total total) by lia. cbn [layout].
    f_equal. f_equal. lia.
Qed.

Lemma planner_floor_witness :
  0 < 10000 ≤ STREAM_MAX ∧ 8 ≤ INT_MAX ∧
  planner_rule 10000 8 (split_input 10000 8 (stream_of []) (world0 ∅)).1.1.
Proof.
  assert (0 < 10000 ≤ STREAM_MAX) as Ht by (unfold STREAM_MAX; lia).
  assert (8 ≤ INT_MAX) as Hp by (unfold INT_MAX; lia).
  split; [exact Ht|]. split; [exact Hp|].
  exact (planner_floor 10000 8 (stream_of []) (world0 ∅) Ht Hp).
Defined.

(** The two scenarios of the description, evaluated. *)
Example plan_10000_at_8 :
  chunk_layout 10000 8 = (10000, 1) ∧
  range <$> (split_input 10000 8 (stream_of []) (world0 ∅)).1.1
    = [(0, 10000)].
Proof. split; vm_compute; reflexivity. Qed.

Example plan_1_at_16 :
  range <$> (split_input 1 16 (stream_of [x2a]) (world0 ∅)).1.1 = [(0, 1)].
Proof. vm_compute. reflexivity. Qed.

Example plan_10000000_at_4 :
  chunk_layout 10000000 4 = (2500000, 4).
Proof. vm_compute. reflexivity. Qed.

(** ** Traces *)

Lemma logged_nil w : logged w [] = w.
Proof. destruct w. unfold logged. cbn. by rewrite app_nil_r. Qed.

Lemma logged_logged w a b : logged (logged w a) b = logged w (a ++ b).
Proof. unfold logged. cbn. by rewrite app_assoc. Qed.

(** ** Rejections before any work *)

(** C6. Compressing an input that is missing or empty returns 1 at once:
    the only thing the run leaves is the diagnostic, so no byte was read,
    zlib was not called, and the file system is as before (no output file
    was created). *)
Theorem compress_rejects_empty cd inpath outpath p w :
  files w !! inpath = None ∨ files w !! inpath = Some [] →
  compress_file cd inpath outpath p w
    = (1, logged w [EvCerr EmptyOrMissingInput]).
Proof.
  intros H. unfold compress_file, file_size. run_m.
  destruct H as [-> | ->]; done.
Qed.

Lemma compress_rejects_empty_witness :
  let w := world0 {[ "empty"%string := [] ]} in
  compress_file stored_codec "empty" "out" 4 w
    = (1, logged w [EvCerr EmptyOrMissingInput])
  ∧ compress_file stored_codec "missing" "out" 4 w
    = (1, logged w [EvCerr EmptyOrMissingInput]).
Proof.
  split.
  - apply (compress_rejects_empty stored_codec). right. reflexivity.
  - apply (compress_rejects_empty stored_codec). left. reflexivity.
Defined.

(** ** Buffers, streams and the layout of integers *)

Lemma length_blit got buf : length (blit got buf) = length buf.
Proof.
  unfold blit. rewrite length_take, length_app, length_drop. lia.
Qed.

Lemma blit_exact got buf : length got = length buf → blit got buf = got.
Proof.
  intros H. unfold blit. rewrite H, drop_all, app_nil_r.
  apply take_ge. lia.
Qed.

Lemma length_vresize n v : 0 ≤ n → len (vresize n v) = n.
Proof. intros H. unfold len, vresize. rewrite length_resize. lia. Qed.

Lemma vresize_exact n v : len v = n → vresize n v = v.
Proof.
  unfold len, vresize. intros <-. rewrite Nat2Z.id. apply resize_all.
Qed.

Lemma vresize_prefix (v u : list byte) : vresize (len v) (v ++ u) = v.
Proof.
  unfold len, vresize. rewrite Nat2Z.id.
  rewrite resize_app_le by lia. apply resize_all.
Qed.

Lemma extract_ok (front back : list byte) n :
  n = len front →
  extract (stream_of (front ++ back)) n = (front, stream_of back).
Proof.
  intros ->. unfold extract, stream_of, len. cbn [good rest].
  destruct (Z.ltb_spec (Z.of_nat (length front)) 0); [lia|].
  rewrite length_app.
  destruct (Z.leb_spec (Z.of_nat (length front))
                       (Z.of_nat (length front + length back))); [|lia].
  rewrite Nat2Z.id, take_app_length, drop_app_length. done.
Qed.

(** A read of [n] > 0 bytes leaves the stream good only if it delivered
    the next [n] bytes. *)
Lemma extract_good s n got s' :
  extract s n = (got, s') → good s' = true →
  good s = true ∧ 0 ≤ n ≤ len (rest s)
  ∧ got = take (Z.to_nat n) (rest s)
  ∧ s' = stream_of (drop (Z.to_nat n) (rest s)).
Proof.
  unfold extract. destruct (good s) eqn:Hg.
  - destruct (Z.ltb_spec n 0); [intros [= <- <-]; done|].
    destruct (Z.leb_spec n (len (rest s))); intros [= <- <-]; [|done].
    intros _. repeat split; lia.
  - intros [= <- <-] Hg'. congruence.
Qed.

Lemma Z_of_byte_range b : 0 ≤ Z_of_byte b < 256.
Proof.
  unfold Z_of_byte. pose proof (Byte.to_N_bounded b). lia.
Qed.

Lemma byte_of_Z_of_byte b v : byte_of_Z (Z_of_byte b + 256 * v) = b.
Proof.
  unfold byte_of_Z. pose proof (Z_of_byte_range b) as Hb.
  replace ((Z_of_byte b + 256 * v) mod 256) with (Z_of_byte b).
  - unfold Z_of_byte. rewrite N2Z.id, Byte.of_to_N. done.
  - replace (Z_of_byte b + 256 * v) with (Z_of_byte b + v * 256) by lia.
    rewrite Z.mod_add by lia. symmetry. apply Z.mod_small. lia.
Qed.

Lemma Z_of_byte_of_Z v : Z_of_byte (byte_of_Z v) = v mod 256.
Proof.
  unfold byte_of_Z, Z_of_byte.
  pose proof (Z.mod_pos_bound v 256 ltac:(lia)) as Hm.
  destruct (Byte.of_N (Z.to_N (v mod 256))) as [b|] eqn:E.
  - apply Byte.to_of_N in E. cbn. rewrite E. lia.
  - apply Byte.of_N_None_iff in E. lia.
Qed.

(** Bytes determine the integer and back. *)
Lemma le_bytes_value bs : le_bytes (length bs) (le_value bs) = bs.
Proof.
  induction bs as [|b bs IH]; [done|].
  cbn [length]. unfold le_bytes, le_value. fold le_bytes le_value.
  rewrite byte_of_Z_of_byte. f_equal.
  pose proof (Z_of_byte_range b).
  replace ((Z_of_byte b + 256 * le_value bs) / 256) with (le_value bs); [done|].
  replace (Z_of_byte b + 256 * le_value bs)
    with (Z_of_byte b + le_value bs * 256) by lia.
  rewrite Z.div_add by lia.
  rewrite (Z.div_small (Z_of_byte b)) by lia. lia.
Qed.

Lemma le_value_bytes n : ∀ v,
  0 ≤ v < 2 ^ (8 * Z.of_nat n) → le_value (le_bytes n v) = v.
Proof.
  induction n as [|n IH]; intros v Hv.
  - cbn in *. unfold le_bytes, le_value. lia.
  - unfold le_bytes, le_value. fold le_bytes le_value.
    rewrite Z_of_byte_of_Z, IH.
    + pose proof (Z.div_mod v 256 ltac:(lia)). lia.
    + replace (8 * Z.of_nat (S n)) with (8 + 8 * Z.of_nat n) in Hv by lia.
      rewrite Z.pow_add_r in Hv by lia. change (2 ^ 8) with 256 in Hv.
      split; [apply Z.div_pos; lia|].
      apply Z.div_lt_upper_bound; lia.
Qed.

Lemma length_le_bytes n v : length (le_bytes n v) = n.
Proof.
  revert v. induction n as [|n IH]; intros v; [done|].
  unfold le_bytes. fold le_bytes. cbn. by rewrite IH.
Qed.

Lemma extract_length s n got s' :
  extract s n = (got, s') → 0 ≤ n → len got ≤ n.
Proof.
  unfold extract, len. intros E Hn. revert E.
  destruct (good s); [|intros [= <- <-]; cbn; lia].
  destruct (Z.ltb_spec n 0); [lia|].
  destruct (Z.leb_spec n (Z.of_nat (length (rest s)))); intros [= <- <-].
  - rewrite length_take. lia.
  - lia.
Qed.

Lemma ifstream_read_run s buf n w :
  ifstream_read s buf n w
  = (blit (extract s n).1 buf, (extract s n).2,
     logged w [EvRead n (length (extract s n).1)]).
Proof. unfold ifstream_read. destruct (extract s n). reflexivity. Qed.

(** C4. A file whose first four bytes are not the magic tag, or whose next
    four bytes are not version 1, is rejected: [decompress_file] returns 1,
    the file system is unchanged (no output file), at most the 8 bytes of
    tag and version were read (the chunk count, the metadata and the
    payloads lie behind them), and zlib was not called. *)
Theorem decompress_rejects_bad_header cd inpath outpath t w data :
  files w !! inpath = Some data →
  take 4 data ≠ MAGIC ∨ take 4 (drop 4 data) ≠ le_bytes 4 VERSION →
  ∃ evs, decompress_file cd inpath outpath t w = (1, logged w evs)
    ∧ (bytes_read evs ≤ 8)%nat ∧ codec_calls evs = 0%nat
    ∧ last evs = Some (EvCerr InvalidHeader).
Proof.
  intros Hin Hbad. unfold decompress_file, ifstream_open, read_header.
  unfold mbind, M_bind, mret, M_ret. rewrite Hin. cbn [fmap option_fmap option_map].
  rewrite ifstream_read_run.
  destruct (extract _ 4) as [magic s1] eqn:E1. cbn [fst snd].
  pose proof (extract_length _ _ _ _ E1 ltac:(lia)) as L1. unfold len in L1.
  destruct (good s1) eqn:G1; cbn [negb].
  2:{ exists [EvRead 4 (length magic); EvCerr InvalidHeader].
      unfold cerr, emit, logged. cbn. rewrite <- app_assoc.
      repeat split; [lia]. }
  destruct (extract_good _ _ _ _ E1 G1) as (_ & Hl1 & -> & ->).
  cbn [rest stream_of] in *. change (Z.to_nat 4) with 4%nat in *.
  assert (length (take 4 data) = length (replicate 4 x00)) as Hlen1.
  { rewrite length_take, length_replicate. unfold len in Hl1. lia. }
  rewrite blit_exact by exact Hlen1.
  destruct (bool_decide_reflect (take 4 data = MAGIC)) as [Hm|Hm]; cbn [negb].
  2:{ exists [EvRead 4 (length (take 4 data)); EvCerr InvalidHeader].
      unfold cerr, emit, logged. cbn. rewrite <- app_assoc.
      repeat split; [lia]. }
  destruct Hbad as [Hbad|Hbad]; [done|]. clear E1.
  rewrite ifstream_read_run.
  destruct (extract _ 4) as [ver s2] eqn:E2. cbn [fst snd].
  pose proof (extract_length _ _ _ _ E2 ltac:(lia)) as L2. unfold len in L2.
  destruct (good s2) eqn:G2; cbn [negb].
  2:{ exists [EvRead 4 (length (take 4 data)); EvRead 4 (length ver);
              EvCerr InvalidHeader].
      unfold cerr, emit, logged. cbn. rewrite <- !app_assoc.
      repeat split; [lia]. }
  destruct (extract_good _ _ _ _ E2 G2) as (_ & Hl2 & -> & ->).
  cbn [rest stream_of] in *. change (Z.to_nat 4) with 4%nat in *.
  assert (length (take 4 (drop 4 data)) = length (replicate 4 x00)) as Hlen2.
  { rewrite length_take, length_replicate. unfold len in Hl2. lia. }
  rewrite blit_exact by exact Hlen2.
  destruct (Z.eqb_spec (le_value (take 4 (drop 4 data))) VERSION) as [Hv|Hv];
    cbn [negb].
  { exfalso. apply Hbad. rewrite <- Hv.
    pose proof (le_bytes_value (take 4 (drop 4 data))) as Hb.
    rewrite Hlen2, length_replicate in Hb. done. }
  exists [EvRead 4 (length (take 4 data)); EvRead 4 (length (take 4 (drop 4 data)));
          EvCerr InvalidHeader].
  unfold cerr, emit, logged. cbn. rewrite <- !app_assoc.
  repeat split; [lia].
Qed.

Lemma decompress_rejects_bad_header_witness :
  let w := world0 {[ "bad.mtcz"%string :=
    [x4d; x54; x5a; x32; x01; x00; x00; x00;
     x00; x00; x00; x00; x00; x00; x00; x00] ]} in
  ∃ evs, decompress_file stored_codec "bad.mtcz" "out" 4 w = (1, logged w evs)
    ∧ (bytes_read evs ≤ 8)%nat ∧ codec_calls evs = 0%nat
    ∧ last evs = Some (EvCerr InvalidHeader).
Proof.
  intros w.
  eapply (decompress_rejects_bad_header stored_codec "bad.mtcz" "out" 4 w).
  - reflexivity.
  - left. cbn. discriminate.
Defined.

(** ** Computations that only log *)

Lemma logger_ret {A} (a : A) : logger (mret a).
Proof. intros w. unfold value_of, events_of. cbn. by rewrite logged_nil. Qed.

Lemma logger_emit e : logger (emit e).
Proof. intros w. reflexivity. Qed.

Lemma logger_cerr d : logger (cerr d).
Proof. apply logger_emit. Qed.

Lemma value_of_bind {A B} (m : M A) (k : A → M B) :
  logger m → (∀ a, logger (k a)) →
  value_of (m ≫= k) = value_of (k (value_of m)).
Proof.
  intros Hm Hk. unfold value_of at 1. unfold mbind, M_bind.
  rewrite (Hm (world0 ∅)), (Hk _ (logged _ _)). done.
Qed.

Lemma events_of_bind {A B} (m : M A) (k : A → M B) :
  logger m → (∀ a, logger (k a)) →
  events_of (m ≫= k) = events_of m ++ events_of (k (value_of m)).
Proof.
  intros Hm Hk. unfold events_of at 1. unfold mbind, M_bind.
  rewrite (Hm (world0 ∅)), (Hk _ (logged _ _)). done.
Qed.

Lemma logger_bind {A B} (m : M A) (k : A → M B) :
  logger m → (∀ a, logger (k a)) → logger (m ≫= k).
Proof.
  intros Hm Hk w. rewrite value_of_bind, events_of_bind by done.
  unfold mbind, M_bind. rewrite (Hm w), (Hk _ (logged w _)).
  by rewrite logged_logged.
Qed.

Ltac logger_step :=
  match goal with
  | |- logger (mret _) => apply logger_ret
  | |- logger (emit _) => apply logger_emit
  | |- logger (cerr _) => apply logger_cerr
  | |- logger (_ ≫= _) => apply logger_bind; [|intros ?]
  | |- logger (if ?b then _ else _) => destruct b
  | |- logger (match ?x with _ => _ end) => destruct x
  end.

Lemma logger_ifstream_read s buf n : logger (ifstream_read s buf n).
Proof. unfold ifstream_read. repeat logger_step. Qed.

Lemma logger_read_chunks fuel : ∀ i ideal total s,
  logger (read_chunks fuel i ideal total s).
Proof.
  induction fuel as [|fuel IH]; intros i ideal total s; cbn [read_chunks].
  - apply logger_ret.
  - repeat first [apply logger_ifstream_read | apply IH | logger_step].
Qed.

Lemma logger_split_input total p s : logger (split_input total p s).
Proof. unfold split_input. logger_step. apply logger_read_chunks. Qed.

Lemma logger_compress_chunk cd inbuf outbuf level :
  logger (compress_chunk cd inbuf outbuf level).
Proof. unfold compress_chunk. repeat logger_step. Qed.

Lemma logger_decompress_chunk cd inbuf outbuf expected :
  logger (decompress_chunk cd inbuf outbuf expected).
Proof. unfold decompress_chunk. repeat logger_step. Qed.

Lemma logger_compress_task cd i c : logger (compress_task cd i c).
Proof.
  unfold compress_task.
  repeat first [apply logger_compress_chunk | logger_step].
Qed.

Lemma logger_decompress_task cd i j : logger (decompress_task cd i j).
Proof.
  unfold decompress_task.
  repeat first [apply logger_decompress_chunk | logger_step].
Qed.

Lemma logger_read_metas fuel : ∀ s, logger (read_metas fuel s).
Proof.
  induction fuel as [|fuel IH]; intros s; cbn [read_metas].
  - apply logger_ret.
  - repeat first [apply logger_ifstream_read | apply IH | logger_step].
Qed.

Lemma logger_read_header s : logger (read_header s).
Proof.
  unfold read_header.
  repeat first [apply logger_ifstream_read | apply logger_read_metas
               | logger_step].
Qed.

Lemma logger_read_blocks metas : ∀ i s, logger (read_blocks i metas s).
Proof.
  induction metas as [|m ms IH]; intros i s; cbn [read_blocks].
  - apply logger_ret.
  - repeat first [apply logger_ifstream_read | apply IH | logger_step].
Qed.

Section ForkJoin.
Context {A B : Type} (task : nat → A → M B).
Hypothesis task_logger : ∀ i j, logger (task i j).

Lemma logger_fork_join jobs : ∀ i, logger (fork_join task i jobs).
Proof.
  induction jobs as [|j js IH]; intros i; cbn [fork_join].
  - apply logger_ret.
  - repeat first [apply task_logger | apply IH | logger_step].
Qed.

(** Slot [k] holds what task [i + k] computes on job [k] alone. *)
Lemma fork_join_value jobs : ∀ i,
  value_of (fork_join task i jobs)
  = imap (λ k j, value_of (task (i + k) j)) jobs.
Proof.
  induction jobs as [|j js IH]; intros i; cbn [fork_join]; [done|].
  rewrite value_of_bind; [|apply task_logger|].
  2:{ intros a. repeat first [apply logger_fork_join | logger_step]. }
  rewrite value_of_bind; [|apply logger_fork_join|intros; apply logger_ret].
  rewrite IH, imap_cons. unfold value_of at 1. cbn. f_equal.
  - by rewrite Nat.add_0_r.
  - apply imap_ext. intros k x _. cbn. by rewrite Nat.add_succ_r.
Qed.

(** The events of the join are those of the tasks, each its own. *)
Lemma fork_join_events jobs : ∀ i,
  events_of (fork_join task i jobs)
  = concat (imap (λ k j, events_of (task (i + k) j)) jobs).
Proof.
  induction jobs as [|j js IH]; intros i; cbn [fork_join]; [done|].
  rewrite events_of_bind; [|apply task_logger|].
  2:{ intros a. repeat first [apply logger_fork_join | logger_step]. }
  rewrite events_of_bind; [|apply logger_fork_join|intros; apply logger_ret].
  rewrite IH, imap_cons. cbn [concat]. unfold events_of at 3. cbn.
  rewrite app_nil_r, Nat.add_0_r. f_equal. f_equal.
  apply imap_ext. intros k x _. cbn. by rewrite Nat.add_succ_r.
Qed.

End ForkJoin.

(** ** Writing the container *)

Lemma appended_nil w out : appended w out [] = w.
Proof.
  destruct w as [fs wr tr]. unfold appended. cbn. f_equal.
  apply alter_id. intros x _. by rewrite app_nil_r.
Qed.

Lemma appended_appended w out a b :
  appended (appended w out a) out b = appended w out (a ++ b).
Proof.
  unfold appended. cbn. f_equal. apply map_eq. intros k.
  destruct (decide (out = k)) as [->|Hne].
  - rewrite !lookup_alter_eq. destruct (files w !! k); cbn; [|done].
    by rewrite app_assoc.
  - by rewrite !lookup_alter_ne.
Qed.

Lemma ofstream_write_run out bs w :
  ofstream_write out bs w = (tt, appended w out bs).
Proof. reflexivity. Qed.

Lemma write_blocks_run out bs : ∀ w,
  write_blocks out bs w = (tt, appended w out (concat bs)).
Proof.
  induction bs as [|b bs IH]; intros w; cbn [write_blocks concat].
  - by rewrite appended_nil.
  - unfold mbind, M_bind. rewrite ofstream_write_run, IH.
    by rewrite appended_appended.
Qed.

Lemma write_metas_run out metas : ∀ w,
  write_metas out metas w = (tt, appended w out (concat (meta_bytes <$> metas))).
Proof.
  induction metas as [|m ms IH]; intros w; cbn [write_metas concat fmap list_fmap].
  - by rewrite appended_nil.
  - unfold mbind, M_bind. rewrite !ofstream_write_run, IH.
    by rewrite !appended_appended.
Qed.

Lemma write_header_run out metas w :
  write_header out metas w = (tt, appended w out (header_bytes metas)).
Proof.
  unfold write_header, mbind, M_bind.
  rewrite !ofstream_write_run, write_metas_run.
  by rewrite !appended_appended.
Qed.

Lemma ofstream_open_ok path w :
  writable w path = true →
  ofstream_open path w
  = (Some path, {| files := <[path := []]> (files w);
                   writable := writable w; trace := trace w |}).
Proof. intros H. unfold ofstream_open. by rewrite H. Qed.

(** A file opened for writing and then written holds what was written. *)
Lemma files_created_appended fs wr tr out bs :
  files (appended {| files := <[out := []]> fs; writable := wr; trace := tr |}
                  out bs)
  = <[out := bs]> fs.
Proof. unfold appended. cbn. by rewrite alter_insert_eq. Qed.

(** ** The compression driver, whatever the codec does *)

Lemma compress_chunk_run cd inbuf level :
  let bound := compressBound cd (len inbuf) in
  let r := compress2 cd bound inbuf level in
  value_of (compress_chunk cd inbuf [] level)
  = (if negb (r.1.1 =? Z_OK)
     then (false, blit r.1.2 (vresize bound []))
     else (true, vresize r.2 (blit r.1.2 (vresize bound []))))
  ∧ events_of (compress_chunk cd inbuf [] level) = [EvCompress2 (len inbuf)].
Proof.
  cbn zeta. unfold value_of, events_of, compress_chunk, mbind, M_bind.
  cbn -[Z.eqb].
  destruct (compress2 cd _ inbuf level) as [[ret written] bound'].
  cbn -[Z.eqb]. destruct (negb (ret =? Z_OK)); done.
Qed.

(** A compression task calls zlib once, on its own chunk, and reports on
    [cerr] exactly when that call fails. *)
Lemma compress_task_events cd i c :
  events_of (compress_task cd i c)
  = EvCompress2 (len (bytes c))
      :: (if (compress2 cd (compressBound cd (len (bytes c))) (bytes c)
                        Z_BEST_COMPRESSION).1.1 =? Z_OK
          then [] else [EvCerr (CompressionFailed i)]).
Proof.
  unfold compress_task.
  rewrite events_of_bind; [|apply logger_compress_chunk|].
  2:{ intros [ok out]. repeat logger_step. }
  destruct (compress_chunk_run cd (bytes c) Z_BEST_COMPRESSION) as [-> ->].
  cbn zeta. cbn [app]. f_equal.
  destruct (_ =? Z_OK); cbn [negb]; reflexivity.
Qed.

(** The run of [compress_file] on a file of [B] (non-empty), with an output
    path that can be opened. *)
Lemma compress_file_run cd inpath outpath p w B :
  files w !! inpath = Some B → 0 < len B ≤ STREAM_MAX →
  writable w outpath = true →
  let chunks := (value_of (split_input (len B) p (stream_of B))).1 in
  let slots := imap (λ i c, value_of (compress_task cd i c)) chunks in
  ∃ w', compress_file cd inpath outpath p w = (0, w')
    ∧ files w' = <[outpath := header_bytes slots.*2 ++ concat slots.*1]> (files w)
    ∧ trace w' = trace w ++ events_of (split_input (len B) p (stream_of B))
                   ++ concat (imap (λ i c, events_of (compress_task cd i c)) chunks)
    ∧ writable w' = writable w.
Proof.
  intros Hin HB Hout chunks slots. unfold STREAM_MAX in HB.
  unfold compress_file, file_size, ifstream_open, mbind, M_bind.
  cbv beta iota. rewrite Hin. cbn [fmap option_fmap option_map].
  rewrite i64_small, u64_small by lia.
  destruct (Z.eqb_spec (len B) 0) as [|_]; [lia|].
  rewrite Hin. cbn [fmap option_fmap option_map]. cbv beta iota.
  rewrite (logger_split_input (len B) p _ w).
  fold (stream_of B).
  destruct (value_of (split_input (len B) p (stream_of B))) as [cs s'] eqn:E.
  rewrite (logger_fork_join _ (logger_compress_task cd) cs 0 _).
  rewrite ofstream_open_ok by done.
  rewrite write_header_run, write_blocks_run, appended_appended.
  eexists. split; [reflexivity|].
  rewrite files_created_appended.
  rewrite fork_join_value, fork_join_events by apply logger_compress_task.
  subst chunks slots. cbn [fst]. split; [done|].
  cbn. by rewrite <- app_assoc.
Qed.


(** C8. When zlib fails on chunk [j] while compressing, the run still
    returns 0 and writes the container: header and payloads are the slots
    the tasks filled, slot [i] being what task [i] computes on chunk [i]
    alone; the trace holds one zlib call per chunk, each by its own task,
    and a task reports a failure exactly when its own call failed, as task
    [j] does. *)
Theorem codec_failure_not_fatal cd inpath outpath p w B (j : nat) cj :
  files w !! inpath = Some B → 0 < len B ≤ STREAM_MAX →
  writable w outpath = true →
  let chunks := (value_of (split_input (len B) p (stream_of B))).1 in
  let slots := imap (λ i c, value_of (compress_task cd i c)) chunks in
  let failed c :=
    negb ((compress2 cd (compressBound cd (len (bytes c))) (bytes c)
                     Z_BEST_COMPRESSION).1.1 =? Z_OK) in
  chunks !! j = Some cj → failed cj = true →
  ∃ w', compress_file cd inpath outpath p w = (0, w')
    ∧ files w' = <[outpath := header_bytes slots.*2 ++ concat slots.*1]> (files w)
    ∧ trace w' = trace w ++ events_of (split_input (len B) p (stream_of B))
                   ++ concat (imap (λ i c, events_of (compress_task cd i c)) chunks)
    ∧ (∀ i c, chunks !! i = Some c →
         events_of (compress_task cd i c)
         = EvCompress2 (len (bytes c))
             :: (if failed c then [EvCerr (CompressionFailed i)] else []))
    ∧ EvCerr (CompressionFailed j) ∈ trace w'.
Proof.
  intros Hin HB Hout chunks slots failed Hj Hfail.
  destruct (compress_file_run cd inpath outpath p w B Hin HB Hout)
    as (w' & Hrun & Hfiles & Htrace & _).
  exists w'. split; [done|]. split; [done|]. split; [done|].
  assert (∀ i c, events_of (compress_task cd i c)
                 = EvCompress2 (len (bytes c))
                     :: (if failed c then [EvCerr (CompressionFailed i)] else []))
    as Hev.
  { intros i c. rewrite compress_task_events. unfold failed.
    destruct (_ =? Z_OK); reflexivity. }
  split; [intros i c _; apply Hev|].
  rewrite Htrace. fold chunks.
  apply elem_of_app. right. apply elem_of_app. right.
  apply list_elem_of_In, in_concat.
  exists (events_of (compress_task cd j cj)).
  split; apply list_elem_of_In.
  - apply list_elem_of_lookup. exists j.
    rewrite list_lookup_imap, Hj. done.
  - rewrite Hev, Hfail. right; left.
Qed.

Lemma codec_failure_not_fatal_witness :
  let B := [x61; x62; x63] in
  let w := world0 {[ "in"%string := B ]} in
  let chunks := (value_of (split_input (len B) 2 (stream_of B))).1 in
  let slots := imap (λ i c, value_of (compress_task failing_codec i c)) chunks in
  ∃ w', compress_file failing_codec "in" "out" 2 w = (0, w')
    ∧ files w' = <["out"%string := header_bytes slots.*2 ++ concat slots.*1]> (files w)
    ∧ EvCerr (CompressionFailed 0) ∈ trace w'.
Proof.
  intros B w chunks slots.
  destruct (codec_failure_not_fatal failing_codec "in" "out" 2 w B 0
              {| start := 0; orig_size := 3; bytes := B |})
    as (w' & H1 & H2 & H3 & H4 & H5).
  - reflexivity.
  - unfold STREAM_MAX. vm_compute. split; [reflexivity | discriminate].
  - reflexivity.
  - vm_compute. reflexivity.
  - reflexivity.
  - exists w'. split; [exact H1|]. split; [exact H2 | exact H5].
Defined.

(** ** The decompression driver, whatever the codec does *)

Lemma le_value_nonneg bs : 0 ≤ le_value bs.
Proof.
  induction bs as [|b bs IH]; unfold le_value; fold le_value; [lia|].
  pose proof (Z_of_byte_range b). lia.
Qed.

Lemma read_metas_nonneg fuel : ∀ s w metas s' w',
  read_metas fuel s w = (Some metas, s', w') →
  Forall (λ m, 0 ≤ compressed_size m ∧ 0 ≤ original_size m) metas.
Proof.
  induction fuel as [|fuel IH]; intros s w metas s' w'; cbn [read_metas].
  - intros [= <- _ _]. constructor.
  - unfold mbind, M_bind. rewrite ifstream_read_run.
    destruct (extract s 8) as [g1 s1]. cbn [fst snd].
    destruct (good s1); cbn [negb]; [|intros [=]].
    rewrite ifstream_read_run.
    destruct (extract s1 8) as [g2 s2]. cbn [fst snd].
    destruct (good s2); cbn [negb]; [|intros [=]].
    destruct (read_metas fuel s2 _) as [[r s3] w3] eqn:E.
    destruct r as [ms|]; cbn; intros [= <- _ _].
    constructor; [cbn; split; apply le_value_nonneg|].
    eapply IH, E.
Qed.

Lemma read_header_nonneg s metas s' :
  value_of (read_header s) = (Some metas, s') →
  Forall (λ m, 0 ≤ compressed_size m ∧ 0 ≤ original_size m) metas.
Proof.
  unfold value_of, read_header, mbind, M_bind.
  repeat (rewrite ifstream_read_run;
          destruct (extract _ _) as [? ?]; cbn [fst snd];
          destruct (good _); cbn [negb]; [|intros [=]; done];
          try (destruct (negb _); [intros [=]; done|])).
  destruct (read_metas _ _ _) as [[r s3] w3] eqn:E. cbn.
  intros [= -> _]. eapply read_metas_nonneg, E.
Qed.

Lemma read_blocks_length metas : ∀ i s w blocks s' w',
  read_blocks i metas s w = (Some blocks, s', w') →
  length blocks = length metas.
Proof.
  induction metas as [|m ms IH]; intros i s w blocks s' w'; cbn [read_blocks].
  - intros [= <- _ _]. done.
  - unfold mbind, M_bind. rewrite ifstream_read_run.
    destruct (extract s _) as [g1 s1]. cbn [fst snd].
    destruct (good s1); cbn [negb]; [|intros [=]].
    destruct (read_blocks (S i) ms s1 _) as [[r s2] w2] eqn:E.
    destruct r as [bs|]; cbn; intros [= <- _ _].
    cbn. f_equal. eapply IH, E.
Qed.

(** The output buffer of a chunk has the declared size, whether or not
    zlib succeeds. *)
Lemma decompress_task_length cd i blk m :
  0 ≤ original_size m →
  len (value_of (decompress_task cd i (blk, m))) = original_size m.
Proof.
  intros Hm. unfold value_of, decompress_task, decompress_chunk, mbind, M_bind.
  cbn -[Z.eqb].
  destruct (uncompress cd (original_size m) blk) as [[ret written] n].
  assert (len (blit written (vresize (original_size m) [])) = original_size m)
    as Hlen by (unfold len; rewrite length_blit; by apply length_vresize).
  destruct (negb (ret =? Z_OK)); cbn -[Z.eqb]; [done|].
  destruct (negb (n =? original_size m)); cbn; done.
Qed.

Lemma decompressed_length cd jobs : ∀ i,
  Forall (λ j, 0 ≤ original_size j.2) jobs →
  len (concat (imap (λ k j, value_of (decompress_task cd (i + k) j)) jobs))
  = total_original jobs.*2.
Proof.
  induction jobs as [|[blk m] js IH]; intros i HF; [done|].
  inversion_clear HF as [|? ? Hm Hjs]. cbn in Hm.
  change (total_original ((blk, m) :: js).*2)
    with (original_size m + total_original js.*2).
  rewrite imap_cons. cbn [concat].
  rewrite len_app, Nat.add_0_r, decompress_task_length by done. f_equal.
  rewrite <- (IH (S i) Hjs). f_equal. f_equal.
  apply imap_ext. intros k x _. cbn. by rewrite Nat.add_succ_r.
Qed.

Lemma decompress_file_run cd inpath outpath t w data metas s1 blocks s2 :
  files w !! inpath = Some data →
  value_of (read_header (stream_of data)) = (Some metas, s1) →
  value_of (read_blocks 0 metas s1) = (Some blocks, s2) →
  writable w outpath = true →
  ∃ w', decompress_file cd inpath outpath t w = (0, w')
    ∧ files w' = <[outpath := concat (imap (λ i j, value_of (decompress_task cd i j))
                                           (zip blocks metas))]> (files w)
    ∧ trace w' = trace w ++ events_of (read_header (stream_of data))
                   ++ events_of (read_blocks 0 metas s1)
                   ++ concat (imap (λ i j, events_of (decompress_task cd i j))
                                   (zip blocks metas)).
Proof.
  intros Hin Hhdr Hblk Hout.
  unfold decompress_file, ifstream_open, mbind, M_bind. cbv beta iota.
  rewrite Hin. cbn [fmap option_fmap option_map]. cbv beta iota.
  fold (stream_of data).
  rewrite (logger_read_header _ w), Hhdr.
  rewrite (logger_read_blocks _ _ _ _), Hblk.
  rewrite (logger_fork_join _ (logger_decompress_task cd) _ 0 _).
  rewrite ofstream_open_ok by done.
  rewrite write_blocks_run.
  eexists. split; [reflexivity|].
  rewrite files_created_appended.
  rewrite fork_join_value, fork_join_events by apply logger_decompress_task.
  split; [done|]. cbn. by rewrite <- !app_assoc.
Qed.

(** ** Codec failures seen from outside *)

(** C5, at a run where zlib fails (out of memory) on the only chunk of a
    one-byte file: the run returns 0 and writes a container whose header
    declares a payload of 0 bytes for the chunk, followed by a payload of
    14 bytes, the whole buffer of [compressBound 1] bytes. *)
Theorem failed_chunk_payload_disagrees_with_header :
  let w := world0 {[ "in"%string := [x61] ]} in
  let r := compress_file failing_codec "in" "out" 1 w in
  r.1 = 0
  ∧ files r.2 !! "out"%string
    = Some (header_bytes [{| compressed_size := 0; original_size := 1 |}]
            ++ replicate 14 x00)
  ∧ trace r.2 = [EvRead 1 1; EvCompress2 1; EvCerr (CompressionFailed 0)].
Proof. vm_compute. repeat split. Qed.

(** C7, at two runs with a codec failure.  Decompressing a container whose
    only payload is not a stream the codec accepts reports the failure of
    chunk 0 on [cerr], writes the output file, and returns 0; so does
    compressing when zlib fails on the chunk. *)
Theorem codec_failure_exit_status :
  let metas := [{| compressed_size := 2; original_size := 1 |}] in
  let w := world0 {[ "c.mtcz"%string := header_bytes metas ++ [xff; xff];
                     "in"%string := [x61] ]} in
  let d := decompress_file framed_codec "c.mtcz" "out" 4 w in
  let c := compress_file failing_codec "in" "out" 1 w in
  (d.1 = 0
   ∧ last (trace d.2) = Some (EvCerr (DecompressionFailed 0))
   ∧ files d.2 !! "out"%string = Some [x00])
  ∧ (c.1 = 0
     ∧ last (trace c.2) = Some (EvCerr (CompressionFailed 0))
     ∧ is_Some (files c.2 !! "out"%string)).
Proof. vm_compute. repeat split. by eexists. Qed.

(** ** Round trip *)

Ltac solve_logger :=
  intros;
  repeat first [ apply logger_ifstream_read | apply logger_read_metas
               | apply logger_read_chunks | apply logger_read_blocks
               | apply logger_compress_chunk | apply logger_decompress_chunk
               | logger_step ].

Lemma value_of_ret {A} (a : A) : value_of (mret a) = a.
Proof. reflexivity. Qed.

Lemma blit_prefix got buf :
  (length got ≤ length buf)%nat → blit got buf = got ++ drop (length got) buf.
Proof.
  intros H. unfold blit. apply take_ge. rewrite length_app, length_drop. lia.
Qed.

Lemma read_exact front back buf n :
  len front = n → length buf = length front →
  value_of (ifstream_read (stream_of (front ++ back)) buf n)
  = (front, stream_of back).
Proof.
  intros Hn Hb. unfold value_of.
  rewrite ifstream_read_run, extract_ok by done.
  cbn. by rewrite blit_exact.
Qed.

Section ReadChunks.
Context (ideal total : Z).
Hypothesis ideal_pos : 0 < ideal.
Hypothesis ideal_le : ideal ≤ total.
Hypothesis total_max : total ≤ STREAM_MAX.

Lemma read_chunks_past fuel i s :
  total ≤ i * ideal < 2 ^ 64 →
  read_chunks fuel i ideal total s = mret ([], s).
Proof.
  intros H. destruct fuel; [done|]. cbn [read_chunks].
  rewrite u64_small by lia.
  destruct (Z.leb_spec total (i * ideal)); [done | lia].
Qed.

(** On a stream that holds the file from offset [i * ideal] on, the loop
    cuts the stream into the chunks: their bytes, put end to end, are the
    stream, and none is empty. *)
Lemma read_chunks_data fuel : ∀ i data,
  0 ≤ i → i * ideal ≤ total → len data = total - i * ideal →
  total ≤ (i + Z.of_nat fuel) * ideal →
  concat (bytes <$> (value_of (read_chunks fuel i ideal total (stream_of data))).1)
    = data
  ∧ Forall (λ c, 0 < len (bytes c))
           (value_of (read_chunks fuel i ideal total (stream_of data))).1.
Proof.
  induction fuel as [|fuel IH]; intros i data Hi Hlo Hlen Hhi.
  { assert (len data = 0) as H0 by lia.
    destruct data; [by split | unfold len in H0; cbn in H0; lia]. }
  unfold STREAM_MAX in total_max.
  destruct (Z.eq_dec (i * ideal) total) as [Heq|Hne].
  { rewrite read_chunks_past by lia.
    assert (len data = 0) as H0 by lia.
    destruct data; [by split | unfold len in H0; cbn in H0; lia]. }
  cbn [read_chunks]. rewrite u64_small by nia.
  destruct (Z.leb_spec total (i * ideal)); [lia|].
  set (sz := Z.min ideal (total - i * ideal)).
  assert (0 < sz ≤ len data) as Hsz by lia.
  remember (take (Z.to_nat sz) data) as front eqn:Hfront.
  remember (drop (Z.to_nat sz) data) as back eqn:Hback.
  assert (data = front ++ back) as Hdata
    by (subst; symmetry; apply take_drop).
  assert (len front = sz) as Hlf
    by (subst front; unfold len in *; rewrite length_take; lia).
  assert (len back = len data - sz) as Hlb
    by (subst back; unfold len in *; rewrite length_drop; lia).
  clear Hfront Hback. subst data.
  rewrite i64_small by lia.
  rewrite value_of_bind by solve_logger.
  rewrite read_exact; [|done|].
  2:{ unfold vresize. rewrite length_resize. unfold len in Hlf. lia. }
  cbv beta iota.
  rewrite value_of_bind by solve_logger.
  destruct (value_of (read_chunks fuel (i + 1) ideal total (stream_of back)))
    as [cs s2] eqn:E.
  rewrite value_of_ret. cbn [fst fmap list_fmap concat bytes].
  assert (concat (bytes <$> cs) = back ∧ Forall (λ c, 0 < len (bytes c)) cs)
    as [Hcat Hall].
  { destruct (Z.le_gt_cases ((i + 1) * ideal) total) as [Hn|Hn].
    - specialize (IH (i + 1) back). rewrite E in IH. apply IH; lia.
    - rewrite read_chunks_past in E by lia. rewrite value_of_ret in E.
      injection E as <- _.
      assert (len back = 0) as H0 by lia.
      destruct back; [by split | unfold len in H0; cbn in H0; lia]. }
  split; [by rewrite Hcat|]. constructor; [cbn; lia | done].
Qed.

End ReadChunks.

(** The chunks of a file, put end to end, are the file. *)
Lemma split_input_data B p :
  0 < len B ≤ STREAM_MAX → p ≤ INT_MAX →
  concat (bytes <$> (value_of (split_input (len B) p (stream_of B))).1) = B
  ∧ Forall (λ c, 0 < len (bytes c))
           (value_of (split_input (len B) p (stream_of B))).1.
Proof.
  intros HB Hp. unfold split_input.
  destruct (chunk_layout_ok (len B) p HB Hp) as (ideal & k & -> & Hi & Hk & Hcov).
  apply (read_chunks_data ideal (len B)); lia.
Qed.

(** Under the contract a compression task stores a block that the
    decompression task of any thread turns back into the chunk. *)
Lemma compress_task_roundtrip cd i i' c :
  codec_roundtrip cd → len (bytes c) ≤ STREAM_MAX →
  ∃ out,
    value_of (compress_task cd i c)
    = (out, {| compressed_size := len out; original_size := len (bytes c) |})
    ∧ len out ≤ STREAM_MAX
    ∧ value_of (decompress_task cd i'
        (out, {| compressed_size := len out; original_size := len (bytes c) |}))
      = bytes c.
Proof.
  intros Hcd Hc.
  destruct (Hcd (bytes c) Z_BEST_COMPRESSION Hc) as (out & Hz & Hfit & Hmax & Hu).
  exists out. split; [|split; [done|]].
  - unfold compress_task. rewrite value_of_bind by solve_logger.
    destruct (compress_chunk_run cd (bytes c) Z_BEST_COMPRESSION) as [-> _].
    rewrite Hz. cbn [fst snd].
    change (Z_OK =? Z_OK) with true. cbn [negb]. cbv beta iota.
    rewrite value_of_ret.
    rewrite blit_prefix.
    2:{ unfold vresize. rewrite length_resize. unfold len in *. lia. }
    by rewrite vresize_prefix.
  - unfold value_of, decompress_task, decompress_chunk, mbind, M_bind.
    cbn -[Z.eqb]. rewrite Hu. cbn -[Z.eqb].
    change (Z_OK =? Z_OK) with true. rewrite Z.eqb_refl. cbn.
    apply blit_exact. unfold vresize. rewrite length_resize.
    unfold len. lia.
Qed.

Lemma read_metas_ok metas : ∀ tail,
  Forall meta_ok metas →
  value_of (read_metas (length metas)
              (stream_of (concat (meta_bytes <$> metas) ++ tail)))
  = (Some metas, stream_of tail).
Proof.
  induction metas as [|m ms IH]; intros tail HF; [done|].
  inversion_clear HF as [|? ? [Hc Ho] Hms].
  cbn [length read_metas fmap list_fmap concat]. unfold meta_bytes at 1.
  rewrite <- !app_assoc.
  rewrite value_of_bind by solve_logger.
  rewrite read_exact by (unfold len; rewrite ?length_le_bytes; done).
  cbv beta iota. cbn [good stream_of negb].
  rewrite value_of_bind by solve_logger.
  rewrite read_exact by (unfold len; rewrite ?length_le_bytes; done).
  cbv beta iota. cbn [good stream_of negb].
  rewrite value_of_bind by solve_logger.
  rewrite IH by done. cbv beta iota. rewrite value_of_ret.
  cbn [fmap option_fmap option_map].
  rewrite !le_value_bytes by (change (8 * Z.of_nat 8) with 64; done).
  by destruct m.
Qed.

Lemma read_header_ok metas tail :
  len metas < 2 ^ 64 → Forall meta_ok metas →
  value_of (read_header (stream_of (header_bytes metas ++ tail)))
  = (Some metas, stream_of tail).
Proof.
  intros Hn HF. unfold read_header, header_bytes. rewrite <- !app_assoc.
  rewrite value_of_bind by solve_logger.
  rewrite read_exact by done.
  cbv beta iota. cbn [good stream_of negb].
  rewrite bool_decide_eq_true_2 by done. cbn [negb].
  rewrite value_of_bind by solve_logger.
  rewrite read_exact by done.
  cbv beta iota. cbn [good stream_of negb].
  change (le_value (le_bytes 4 VERSION) =? VERSION) with true. cbn [negb].
  rewrite value_of_bind by solve_logger.
  rewrite read_exact by (unfold len; rewrite ?length_le_bytes; done).
  cbv beta iota. cbn [good stream_of negb].
  rewrite le_value_bytes
    by (change (8 * Z.of_nat 8) with 64; pose proof (len_nonneg metas); lia).
  unfold len. rewrite Nat2Z.id. by apply read_metas_ok.
Qed.

Lemma read_blocks_ok blocks metas :
  Forall2 (λ b m, compressed_size m = len b ∧ len b ≤ STREAM_MAX) blocks metas →
  ∀ i tail,
    value_of (read_blocks i metas (stream_of (concat blocks ++ tail)))
    = (Some blocks, stream_of tail).
Proof.
  induction 1 as [|b m bs ms [Hsz Hmax] _ IH]; intros i tail; [done|].
  cbn [read_blocks concat]. rewrite <- app_assoc.
  rewrite value_of_bind by solve_logger.
  rewrite Hsz. unfold STREAM_MAX in Hmax. pose proof (len_nonneg b).
  rewrite i64_small by lia.
  rewrite read_exact; [|done|].
  2:{ unfold vresize. rewrite length_resize. unfold len. lia. }
  cbv beta iota. cbn [good stream_of negb].
  rewrite value_of_bind by solve_logger.
  rewrite IH. cbv beta iota. by rewrite value_of_ret.
Qed.

(** What a task stores does not depend on its thread index (only its
    diagnostic does). *)
Lemma compress_task_value cd i c :
  value_of (compress_task cd i c) = value_of (compress_task cd 0 c).
Proof.
  unfold compress_task. rewrite !value_of_bind by solve_logger.
  destruct (value_of (compress_chunk cd _ _ _)) as [[] out]; reflexivity.
Qed.

Lemma decompress_task_value cd i j :
  value_of (decompress_task cd i j) = value_of (decompress_task cd 0 j).
Proof.
  unfold decompress_task. rewrite !value_of_bind by solve_logger.
  destruct (value_of (decompress_chunk cd _ _ _)) as [[] out]; reflexivity.
Qed.

Lemma imap_ignore {A B} (f : nat → A → B) (g : A → B) l :
  (∀ i x, f i x = g x) → imap f l = g <$> l.
Proof.
  intros H. rewrite <- imap_const. apply imap_ext. intros; apply H.
Qed.

Lemma len_concat_bound (ls : list (list byte)) :
  Forall (λ l, len l ≤ len (concat ls)) ls.
Proof.
  induction ls as [|l ls IH]; [constructor|]. cbn [concat]. rewrite len_app.
  constructor; [pose proof (len_nonneg (concat ls)); lia|].
  eapply Forall_impl; [exact IH|]. cbn. intros x Hx.
  pose proof (len_nonneg l). lia.
Qed.

Lemma len_concat_count (ls : list (list byte)) :
  Forall (λ l, 0 < len l) ls → len ls ≤ len (concat ls).
Proof.
  induction 1 as [|l ls Hl _ IH]; [done|]. cbn [concat].
  rewrite len_app. unfold len in *. cbn [length]. lia.
Qed.

(** The slots of the compression tasks, read back by the decompression
    tasks. *)
Lemma slots_roundtrip cd chunks :
  codec_roundtrip cd →
  Forall (λ c, len (bytes c) ≤ STREAM_MAX) chunks →
  let slots := (λ c, value_of (compress_task cd 0 c)) <$> chunks in
  Forall meta_ok slots.*2
  ∧ Forall2 (λ b m, compressed_size m = len b ∧ len b ≤ STREAM_MAX)
            slots.*1 slots.*2
  ∧ (λ j, value_of (decompress_task cd 0 j)) <$> slots = bytes <$> chunks.
Proof.
  intros Hcd. induction 1 as [|c cs Hc _ IH]; cbn zeta.
  { repeat split; constructor. }
  destruct IH as (IH1 & IH2 & IH3). cbn [fmap list_fmap].
  destruct (compress_task_roundtrip cd 0 0 c Hcd Hc) as (out & -> & Hout & Hback).
  cbn [fst snd]. rewrite Hback.
  pose proof (len_nonneg out). pose proof (len_nonneg (bytes c)).
  unfold STREAM_MAX in *.
  split; [|split].
  - constructor; [|exact IH1]. unfold meta_ok. cbn. lia.
  - constructor; [|exact IH2]. cbn. lia.
  - f_equal. exact IH3.
Qed.

(** C1. For a non-empty input [B] (of a length that is a file offset) and a
    requested parallelism [P] ≥ 1 (an [int]), with a codec that meets the
    round-trip contract: [compress_file] returns 0 and writes a container,
    and [decompress_file] on that container, with any thread count, returns
    0 and writes exactly [B]. *)
Theorem compress_decompress_roundtrip cd inpath cpath outpath P t w B :
  codec_roundtrip cd →
  files w !! inpath = Some B → 0 < len B ≤ STREAM_MAX →
  1 ≤ P ≤ INT_MAX →
  writable w cpath = true → writable w outpath = true →
  ∃ w1 w2,
    compress_file cd inpath cpath P w = (0, w1)
    ∧ decompress_file cd cpath outpath t w1 = (0, w2)
    ∧ files w2 !! outpath = Some B.
Proof.
  intros Hcd Hin HB HP Hwc Hwo.
  destruct (compress_file_run cd inpath cpath P w B Hin HB Hwc)
    as (w1 & Hrun1 & Hfiles1 & _ & Hwr1).
  destruct (split_input_data B P HB ltac:(lia)) as [Hcat Hne].
  set (chunks := (value_of (split_input (len B) P (stream_of B))).1) in *.
  rewrite (imap_ignore _ (λ c, value_of (compress_task cd 0 c))) in Hfiles1
    by (intros; apply compress_task_value).
  set (slots := (λ c, value_of (compress_task cd 0 c)) <$> chunks) in *.
  assert (Forall (λ c, len (bytes c) ≤ STREAM_MAX) chunks) as Hsmall.
  { pose proof (len_concat_bound (bytes <$> chunks)) as Hb.
    rewrite Hcat in Hb. rewrite Forall_fmap in Hb.
    eapply Forall_impl; [exact Hb|]. cbn. intros c Hc. lia. }
  destruct (slots_roundtrip cd chunks Hcd Hsmall) as (Hmeta & Hblocks & Hback).
  fold slots in Hmeta, Hblocks, Hback.
  assert (len slots.*2 < 2 ^ 64) as Hcount.
  { pose proof (len_concat_count (bytes <$> chunks)) as Hn.
    rewrite Hcat in Hn. rewrite Forall_fmap in Hn. specialize (Hn Hne).
    unfold len in *. unfold slots. rewrite !length_fmap in *.
    unfold STREAM_MAX in HB. lia. }
  destruct (decompress_file_run cd cpath outpath t w1
              (header_bytes slots.*2 ++ concat slots.*1) slots.*2
              (stream_of (concat slots.*1)) slots.*1 (stream_of []))
    as (w2 & Hrun2 & Hfiles2 & _).
  - rewrite Hfiles1. apply lookup_insert_eq.
  - by apply read_header_ok.
  - rewrite <- (app_nil_r (concat slots.*1)). by apply read_blocks_ok.
  - by rewrite Hwr1.
  - exists w1, w2. split; [done|]. split; [done|].
    rewrite Hfiles2, lookup_insert_eq. f_equal.
    rewrite zip_fst_snd.
    rewrite (imap_ignore _ (λ j, value_of (decompress_task cd 0 j)))
      by (intros; apply decompress_task_value).
    by rewrite Hback.
Qed.

Lemma stored_codec_roundtrip : codec_roundtrip stored_codec.
Proof.
  intros src level Hsrc. exists src. cbn.
  destruct (Z.leb_spec (len src) (len src + 13)); [|lia].
  destruct (Z.leb_spec (len src) (len src)); [|lia].
  repeat split; lia.
Qed.

Lemma compress_decompress_roundtrip_witness :
  let B := [x68; x65; x6c; x6c; x6f] in
  let w := world0 {[ "in"%string := B ]} in
  ∃ w1 w2,
    compress_file stored_codec "in" "c.mtcz" 4 w = (0, w1)
    ∧ decompress_file stored_codec "c.mtcz" "out" 7 w1 = (0, w2)
    ∧ files w2 !! "out"%string = Some B.
Proof.
  intros B w.
  apply (compress_decompress_roundtrip stored_codec "in" "c.mtcz" "out" 4 7 w B).
  - exact stored_codec_roundtrip.
  - reflexivity.
  - unfold STREAM_MAX. vm_compute. split; [reflexivity | discriminate].
  - unfold INT_MAX. lia.
  - reflexivity.
  - reflexivity.
Defined.

(** ** The slot of a compression task *)

Lemma len_vresize n v : len (vresize n v) = Z.max 0 n.
Proof. unfold len, vresize. rewrite length_resize. lia. Qed.

(** What a compression task leaves in its slots: on success the metadata
    records the length of the block; on failure it records 0 while the
    block keeps the [compressBound] bytes it was given before the call. *)
Lemma compress_task_slot cd i c :
  let bound := compressBound cd (len (bytes c)) in
  let ret := (compress2 cd bound (bytes c) Z_BEST_COMPRESSION).1.1 in
  let slot := value_of (compress_task cd i c) in
  original_size slot.2 = len (bytes c)
  ∧ if ret =? Z_OK then compressed_size slot.2 = len slot.1
    else compressed_size slot.2 = 0 ∧ len slot.1 = Z.max 0 bound.
Proof.
  cbn zeta. unfold compress_task. rewrite value_of_bind by solve_logger.
  destruct (compress_chunk_run cd (bytes c) Z_BEST_COMPRESSION) as [-> _].
  destruct (_ =? Z_OK); cbn [negb]; cbv beta iota.
  - rewrite value_of_ret. cbn. done.
  - rewrite value_of_bind by solve_logger. rewrite value_of_ret. cbn.
    split; [done|]. split; [done|].
    unfold len at 1. rewrite length_blit. apply len_vresize.
Qed.

(** * Further properties of the drivers and their parts *)

(** ** Every outcome of the compression driver *)

Lemma codec_calls_app a b : codec_calls (a ++ b) = (codec_calls a + codec_calls b)%nat.
Proof.
  induction a as [|e a IH]; [done|]. destruct e; cbn; rewrite IH; lia.
Qed.

Lemma value_of_ifstream_read s buf n :
  value_of (ifstream_read s buf n) = (blit (extract s n).1 buf, (extract s n).2).
Proof. unfold value_of. by rewrite ifstream_read_run. Qed.

Lemma events_of_ifstream_read s buf n :
  events_of (ifstream_read s buf n) = [EvRead n (length (extract s n).1)].
Proof. unfold events_of. by rewrite ifstream_read_run. Qed.

(** The five ways [compress_file] can go. *)
Lemma compress_file_cases cd inpath outpath p w :
  match files w !! inpath with
  | None =>
      compress_file cd inpath outpath p w
      = (1, logged w [EvCerr EmptyOrMissingInput])
  | Some B =>
      let total := u64 (i64 (len B)) in
      let chunks := (value_of (split_input total p (stream_of B))).1 in
      let slots := imap (λ i c, value_of (compress_task cd i c)) chunks in
      let evs := events_of (split_input total p (stream_of B))
                 ++ concat (imap (λ i c, events_of (compress_task cd i c)) chunks) in
      if total =? 0 then
        compress_file cd inpath outpath p w
        = (1, logged w [EvCerr EmptyOrMissingInput])
      else if writable w outpath then
        compress_file cd inpath outpath p w
        = (0, {| files := <[outpath := header_bytes slots.*2 ++ concat slots.*1]>
                            (files w);
                 writable := writable w; trace := trace w ++ evs |})
      else
        compress_file cd inpath outpath p w
        = (1, logged w (evs ++ [EvCerr FailedOpenOutput]))
  end.
Proof.
  unfold compress_file, file_size, ifstream_open, mbind, M_bind.
  cbv beta iota.
  destruct (files w !! inpath) as [B|] eqn:Hin; [|reflexivity].
  cbv zeta. destruct (u64 (i64 (len B)) =? 0) eqn:E0; [reflexivity|].
  rewrite Hin. cbn [fmap option_fmap option_map]. cbv beta iota.
  fold (stream_of B).
  rewrite (logger_split_input _ p _ w).
  destruct (value_of (split_input _ p (stream_of B))) as [cs s'] eqn:E.
  rewrite (logger_fork_join _ (logger_compress_task cd) cs 0 _).
  rewrite fork_join_value, fork_join_events by apply logger_compress_task.
  cbn [fst].
  destruct (writable w outpath) eqn:Hw.
  - rewrite ofstream_open_ok by done.
    rewrite write_header_run, write_blocks_run, appended_appended.
    unfold mret, M_ret, appended, logged. cbn [files writable trace].
    f_equal. f_equal; [by rewrite alter_insert_eq | by rewrite <- app_assoc].
  - unfold ofstream_open. cbn [writable logged]. rewrite Hw.
    unfold mbind, M_bind, mret, M_ret, cerr, emit, logged.
    cbn [files writable trace]. f_equal. f_equal. by rewrite <- !app_assoc.
Qed.


(** ** What the header reader accepts *)

Lemma le_value_bound bs : le_value bs < 2 ^ (8 * len bs).
Proof.
  induction bs as [|b bs IH]; unfold le_value; fold le_value; [done|].
  pose proof (Z_of_byte_range b). pose proof (len_nonneg bs).
  replace (8 * len (b :: bs)) with (8 + 8 * len bs)
    by (unfold len; cbn [length]; lia).
  rewrite Z.pow_add_r by lia. change (2 ^ 8) with 256. lia.
Qed.

(** A read of [n] ≥ 0 bytes into a buffer of [n] bytes that leaves the
    stream good has delivered the next [n] bytes. *)
Lemma read_good data (k : nat) buf r s' :
  value_of (ifstream_read (stream_of data) buf (Z.of_nat k)) = (r, s') →
  length buf = k → good s' = true →
  r = take k data ∧ s' = stream_of (drop k data) ∧ length r = k
  ∧ data = r ++ drop k data.
Proof.
  rewrite value_of_ifstream_read.
  destruct (extract (stream_of data) (Z.of_nat k)) as [g s1] eqn:E.
  cbn [fst snd]. intros [= <- <-] Hbuf Hg.
  destruct (extract_good _ _ _ _ E Hg) as (_ & Hl & -> & ->).
  cbn [rest stream_of] in *. rewrite Nat2Z.id.
  assert (length (take k data) = k) as Hlen
    by (rewrite length_take; unfold len in Hl; lia).
  rewrite blit_exact by lia.
  repeat split; [done|]. by rewrite take_drop.
Qed.

Lemma read_metas_sound fuel : ∀ data metas s',
  value_of (read_metas fuel (stream_of data)) = (Some metas, s') →
  data = concat (meta_bytes <$> metas) ++ rest s'
  ∧ good s' = true ∧ length metas = fuel ∧ Forall meta_ok metas.
Proof.
  induction fuel as [|fuel IH]; intros data metas s'; cbn [read_metas].
  { rewrite value_of_ret. intros [= <- <-]. repeat split. constructor. }
  rewrite value_of_bind by solve_logger.
  destruct (value_of (ifstream_read (stream_of data) _ 8)) as [g1 s1] eqn:E1.
  cbv beta iota. destruct (good s1) eqn:G1; cbn [negb]; [|by rewrite value_of_ret].
  destruct (read_good data 8 _ g1 s1 E1 eq_refl G1) as (_ & -> & L1 & D1).
  rewrite value_of_bind by solve_logger.
  destruct (value_of (ifstream_read (stream_of (drop 8 data)) _ 8))
    as [g2 s2] eqn:E2.
  cbv beta iota. destruct (good s2) eqn:G2; cbn [negb]; [|by rewrite value_of_ret].
  destruct (read_good (drop 8 data) 8 _ g2 s2 E2 eq_refl G2) as (_ & -> & L2 & D2).
  rewrite value_of_bind by solve_logger.
  destruct (value_of (read_metas fuel (stream_of (drop 8 (drop 8 data)))))
    as [[ms|] s3] eqn:E3; cbv beta iota; rewrite value_of_ret;
    cbn [fmap option_fmap option_map]; [|done].
  intros [= <- <-].
  destruct (IH _ _ _ E3) as (D3 & G3 & L3 & M3).
  split; [|split; [done|split; [by cbn; f_equal|]]].
  - cbn [fmap list_fmap concat]. unfold meta_bytes at 1.
    cbn [compressed_size original_size].
    rewrite <- L1 at 1. rewrite <- L2 at 1. rewrite !le_bytes_value.
    rewrite <- !app_assoc, <- D3, <- D2. exact D1.
  - constructor; [|done]. unfold meta_ok. cbn.
    pose proof (le_value_bound g1). pose proof (le_value_bound g2).
    pose proof (le_value_nonneg g1). pose proof (le_value_nonneg g2).
    unfold len in *. rewrite L1 in *. rewrite L2 in *.
    change (8 * Z.of_nat 8) with 64 in *. lia.
Qed.

Lemma read_header_sound data metas s' :
  value_of (read_header (stream_of data)) = (Some metas, s') →
  data = header_bytes metas ++ rest s'
  ∧ good s' = true ∧ len metas < 2 ^ 64 ∧ Forall meta_ok metas.
Proof.
  unfold read_header.
  rewrite value_of_bind by solve_logger.
  destruct (value_of (ifstream_read (stream_of data) _ 4)) as [g1 s1] eqn:E1.
  cbv beta iota. destruct (good s1) eqn:G1; cbn [negb]; [|by rewrite value_of_ret].
  destruct (read_good data 4 _ g1 s1 E1 eq_refl G1) as (_ & -> & L1 & D1).
  destruct (bool_decide_reflect (g1 = MAGIC)) as [->|]; cbn [negb];
    [|by rewrite value_of_ret].
  rewrite value_of_bind by solve_logger.
  destruct (value_of (ifstream_read (stream_of (drop 4 data)) _ 4))
    as [g2 s2] eqn:E2.
  cbv beta iota. destruct (good s2) eqn:G2; cbn [negb]; [|by rewrite value_of_ret].
  destruct (read_good (drop 4 data) 4 _ g2 s2 E2 eq_refl G2) as (_ & -> & L2 & D2).
  destruct (Z.eqb_spec (le_value g2) VERSION) as [Hv|]; cbn [negb];
    [|by rewrite value_of_ret].
  rewrite value_of_bind by solve_logger.
  destruct (value_of (ifstream_read (stream_of (drop 4 (drop 4 data))) _ 8))
    as [g3 s3] eqn:E3.
  cbv beta iota. destruct (good s3) eqn:G3; cbn [negb]; [|by rewrite value_of_ret].
  destruct (read_good (drop 4 (drop 4 data)) 8 _ g3 s3 E3 eq_refl G3)
    as (_ & -> & L3 & D3).
  intros E4. destruct (read_metas_sound _ _ _ _ E4) as (D4 & G4 & L4 & M4).
  pose proof (le_value_bound g3) as Hb. pose proof (le_value_nonneg g3).
  unfold len in Hb. rewrite L3 in Hb. change (8 * Z.of_nat 8) with 64 in Hb.
  assert (len metas = le_value g3) as Hcnt by (unfold len; lia).
  split; [|split; [done|split; [lia|done]]].
  unfold header_bytes. rewrite Hcnt, <- Hv.
  rewrite <- L2 at 1. rewrite <- L3 at 1. rewrite !le_bytes_value.
  rewrite <- !app_assoc, <- D4, <- D3, <- D2. exact D1.
Qed.

(** X4. [read_header] returns metadata exactly on the streams that begin
    with a well-formed header (tag, version 1, a count, and that many
    records of two 64-bit fields): it then returns the records in order and
    leaves the stream good, positioned right behind the header. *)
Theorem read_header_accepts data metas s' :
  value_of (read_header (stream_of data)) = (Some metas, s')
  ↔ s' = stream_of (rest s')
    ∧ data = header_bytes metas ++ rest s'
    ∧ len metas < 2 ^ 64 ∧ Forall meta_ok metas.
Proof.
  split.
  - intros H. destruct (read_header_sound _ _ _ H) as (D & G & L & M).
    split; [|done]. destruct s' as [r g]. cbn in G. by subst g.
  - intros (-> & -> & L & M). by apply read_header_ok.
Qed.

Lemma len_meta_bytes metas : len (concat (meta_bytes <$> metas)) = 16 * len metas.
Proof.
  induction metas as [|m ms IH]; [done|].
  cbn [fmap list_fmap concat]. rewrite len_app, IH. unfold meta_bytes.
  rewrite len_app. unfold len. rewrite !length_le_bytes. cbn [length]. lia.
Qed.

Lemma len_header_bytes metas : len (header_bytes metas) = 16 + 16 * len metas.
Proof.
  unfold header_bytes. rewrite !len_app, len_meta_bytes.
  unfold len. rewrite !length_le_bytes. cbn [length MAGIC]. lia.
Qed.

(** X5. What [write_header] writes to a freshly opened file is 16 + 16 N
    bytes for N records, no other file changes, and [read_header] on those
    bytes, followed by anything, gives the records back and stops right
    behind them. *)
Theorem write_then_read_header out metas tail w :
  writable w out = true → len metas < 2 ^ 64 → Forall meta_ok metas →
  let w1 := (ofstream_open out w).2 in
  let w2 := (write_header out metas w1).2 in
  ∃ data, files w2 = <[out := data]> (files w)
    ∧ len data = 16 + 16 * len metas
    ∧ value_of (read_header (stream_of (data ++ tail)))
      = (Some metas, stream_of tail).
Proof.
  intros Hw Hn Hm. cbv zeta.
  rewrite ofstream_open_ok by done. rewrite write_header_run. cbn [snd].
  exists (header_bytes metas). split; [|split].
  - by rewrite files_created_appended.
  - apply len_header_bytes.
  - by apply read_header_ok.
Qed.

Lemma write_then_read_header_witness :
  let metas := [{| compressed_size := 3; original_size := 300 |};
                {| compressed_size := 0; original_size := 0 |}] in
  let w := world0 ∅ in
  let w1 := (ofstream_open "h" w).2 in
  let w2 := (write_header "h" metas w1).2 in
  ∃ data, files w2 = <["h"%string := data]> (files w)
    ∧ len data = 16 + 16 * len metas
    ∧ value_of (read_header (stream_of (data ++ [xff])))
      = (Some metas, stream_of [xff]).
Proof.
  intros metas w.
  apply (write_then_read_header "h" metas [xff] w).
  - reflexivity.
  - vm_compute. reflexivity.
  - repeat constructor; cbn; lia.
Defined.

(** ** Stages that do not call zlib *)

Lemma quiet_ret {A} (a : A) : quiet (mret a).
Proof. split; [apply logger_ret | done]. Qed.

Lemma quiet_cerr d : quiet (cerr d).
Proof. split; [apply logger_cerr | done]. Qed.

Lemma quiet_bind {A B} (m : M A) (k : A → M B) :
  quiet m → (∀ a, quiet (k a)) → quiet (m ≫= k).
Proof.
  intros [Lm Qm] Hk. split.
  - apply logger_bind; [done|]. intros a. apply Hk.
  - rewrite events_of_bind; [|done|intros a; apply Hk].
    rewrite codec_calls_app, Qm. apply Hk.
Qed.

Lemma quiet_ifstream_read s buf n : quiet (ifstream_read s buf n).
Proof.
  split; [apply logger_ifstream_read|]. by rewrite events_of_ifstream_read.
Qed.

Ltac quiet_step :=
  match goal with
  | |- quiet (mret _) => apply quiet_ret
  | |- quiet (cerr _) => apply quiet_cerr
  | |- quiet (ifstream_read _ _ _) => apply quiet_ifstream_read
  | |- quiet (_ ≫= _) => apply quiet_bind; [|intros ?]
  | |- quiet (if ?b then _ else _) => destruct b
  | |- quiet (match ?x with _ => _ end) => destruct x
  end.

Lemma quiet_read_chunks fuel : ∀ i ideal total s,
  quiet (read_chunks fuel i ideal total s).
Proof.
  induction fuel as [|fuel IH]; intros i ideal total s; cbn [read_chunks].
  - apply quiet_ret.
  - repeat first [apply IH | quiet_step].
Qed.

Lemma quiet_split_input total p s : quiet (split_input total p s).
Proof. unfold split_input. quiet_step. apply quiet_read_chunks. Qed.

Lemma quiet_read_metas fuel : ∀ s, quiet (read_metas fuel s).
Proof.
  induction fuel as [|fuel IH]; intros s; cbn [read_metas].
  - apply quiet_ret.
  - repeat first [apply IH | quiet_step].
Qed.

Lemma quiet_read_header s : quiet (read_header s).
Proof.
  unfold read_header. repeat first [apply quiet_read_metas | quiet_step].
Qed.

Lemma quiet_read_blocks metas : ∀ i s, quiet (read_blocks i metas s).
Proof.
  induction metas as [|m ms IH]; intros i s; cbn [read_blocks].
  - apply quiet_ret.
  - repeat first [apply IH | quiet_step].
Qed.

(** ** What the block loader accepts *)

Lemma i64_nonneg z : 0 ≤ z < 2 ^ 64 → 0 ≤ i64 z → i64 z = z ∧ z ≤ STREAM_MAX.
Proof.
  intros Hz Hi. unfold STREAM_MAX.
  destruct (Z.lt_ge_cases z (2 ^ 63)); [rewrite i64_small in *; lia|].
  exfalso. unfold i64 in Hi.
  replace (z + 2 ^ 63) with (z - 2 ^ 63 + 1 * 2 ^ 64) in Hi by lia.
  rewrite Z.mod_add, Z.mod_small in Hi; lia.
Qed.

Lemma read_blocks_sound metas : ∀ i data blocks s',
  Forall meta_ok metas →
  value_of (read_blocks i metas (stream_of data)) = (Some blocks, s') →
  data = concat blocks ++ rest s' ∧ good s' = true
  ∧ Forall2 (λ b m, compressed_size m = len b ∧ len b ≤ STREAM_MAX) blocks metas.
Proof.
  induction metas as [|m ms IH]; intros i data blocks s' HF; cbn [read_blocks].
  { rewrite value_of_ret. intros [= <- <-]. repeat split. constructor. }
  inversion_clear HF as [|? ? [Hc _] Hms].
  rewrite value_of_bind by solve_logger. rewrite value_of_ifstream_read.
  destruct (extract (stream_of data) (i64 (compressed_size m))) as [g s1] eqn:E1.
  cbn [fst snd]. cbv beta iota.
  destruct (good s1) eqn:G1; cbn [negb].
  2:{ rewrite value_of_bind by solve_logger. by rewrite value_of_ret. }
  destruct (extract_good _ _ _ _ E1 G1) as (_ & Hl & -> & ->).
  cbn [rest stream_of] in *.
  destruct (i64_nonneg (compressed_size m) Hc (proj1 Hl)) as [Hi Hmax].
  rewrite Hi in *.
  set (k := Z.to_nat (compressed_size m)) in *.
  assert (length (take k data) = k) as Lk
    by (rewrite length_take; unfold len in Hl; lia).
  rewrite blit_exact
    by (unfold vresize; rewrite length_resize; fold k; lia).
  rewrite value_of_bind by solve_logger.
  destruct (value_of (read_blocks (S i) ms (stream_of (drop k data))))
    as [[bs|] s2] eqn:E2; cbv beta iota; rewrite value_of_ret;
    cbn [fmap option_fmap option_map]; [|done].
  intros [= <- <-].
  destruct (IH _ _ _ _ Hms E2) as (D & G & F).
  split; [|split; [done|]].
  - cbn [concat]. rewrite <- app_assoc, <- D. by rewrite take_drop.
  - constructor; [|done]. unfold len. rewrite Lk. unfold STREAM_MAX in *.
    subst k. lia.
Qed.

Lemma len_concat_blocks (blocks : list (list byte)) metas :
  Forall2 (λ b m, compressed_size m = len b ∧ len b ≤ STREAM_MAX) blocks metas →
  len (concat blocks) = total_compressed metas.
Proof.
  induction 1 as [|b m bs ms [Hb _] _ IH]; [done|].
  cbn [concat total_compressed foldr]. rewrite len_app, Hb. f_equal. exact IH.
Qed.

(** ** More on the planner *)

Lemma layout_length_le fuel : ∀ i ideal total,
  (length (layout fuel i ideal total) ≤ fuel)%nat.
Proof.
  induction fuel as [|fuel IH]; intros i ideal total; cbn [layout]; [done|].
  destruct (_ <=? _); cbn [length]; [lia|]. specialize (IH (i + 1) ideal total). lia.
Qed.

(** The planner never makes more chunks than the (clamped) request, and
    its stride is never below the floor unless the file is. *)
Lemma chunk_count_le total p :
  0 < total ≤ STREAM_MAX → p ≤ INT_MAX →
  (chunk_layout total p).2 ≤ Z.max 1 p
  ∧ 1 ≤ (chunk_layout total p).2
  ∧ Z.min MIN_CHUNK total ≤ (chunk_layout total p).1.
Proof.
  intros Ht Hp. rewrite chunk_layout_spec by done.
  assert (1 ≤ Z.max 1 p) as Hn by lia.
  set (n := Z.max 1 p) in *. clearbody n.
  pose proof (ceil_div_spec total n ltac:(lia)) as Hc.
  rewrite <- ceil_div_eq in Hc by lia.
  unfold MIN_CHUNK. change (64 * 1024) with 65536.
  destruct (Z.ltb_spec (ceil_div total n) 65536) as [Hf|Hf]; cbn [fst snd].
  - set (m := Z.min 65536 total).
    assert (0 < m) as Hm by (unfold m; lia).
    pose proof (ceil_div_spec total m Hm) as Hk.
    rewrite <- ceil_div_eq in Hk by lia.
    assert (ceil_div total n ≤ m) as Hcm by (unfold m; nia).
    assert (total ≤ n * m) by nia.
    split; [nia|]. split; [nia | lia].
  - split; [lia|]. split; [lia | lia].
Qed.

(** X8. For a file of [total] > 0 bytes and a requested thread count [p],
    the planner makes at most max(1, p) chunks; its stride is at least
    min(64 KiB, total); so in a file of 64 KiB or more every chunk but the
    last has at least 64 KiB. *)
Theorem planner_bounds total p s w :
  0 < total ≤ STREAM_MAX → p ≤ INT_MAX →
  let cs := (split_input total p s w).1.1 in
  len cs ≤ Z.max 1 p
  ∧ Z.min MIN_CHUNK total ≤ (chunk_layout total p).1
  ∧ (MIN_CHUNK ≤ total →
     ∀ (k : nat) c, cs !! k = Some c → (S k < length cs)%nat →
       MIN_CHUNK ≤ orig_size c).
Proof.
  intros Ht Hp cs.
  destruct (chunk_count_le total p Ht Hp) as (Hle & Hge & Hstride).
  destruct (chunk_layout_ok total p Ht Hp) as (ideal & k & E & Hi & Hk & Hcov).
  assert (range <$> cs = layout (Z.to_nat k) 0 ideal total) as Hr.
  { subst cs. unfold split_input. rewrite E. apply read_chunks_ranges. }
  rewrite E in *. cbn [fst snd] in *.
  split; [|split; [done|]].
  - unfold len. rewrite <- (length_fmap range), Hr.
    pose proof (layout_length_le (Z.to_nat k) 0 ideal total). lia.
  - intros Hbig j c Hj Hlen.
    assert ((range <$> cs) !! j = Some (range c)) as Hj'
      by (by rewrite list_lookup_fmap, Hj).
    rewrite <- (length_fmap range) in Hlen. rewrite Hr in Hj', Hlen.
    unfold STREAM_MAX in Ht.
    assert ((range c).2 = ideal) as Hsz.
    { eapply (layout_stride ideal total); [..|exact Hj'|exact Hlen]; lia. }
    cbn in Hsz. lia.
Qed.

Lemma planner_bounds_witness :
  let cs := (split_input 200000 3 (stream_of []) (world0 ∅)).1.1 in
  len cs ≤ Z.max 1 3
  ∧ Z.min MIN_CHUNK 200000 ≤ (chunk_layout 200000 3).1
  ∧ (MIN_CHUNK ≤ 200000 →
     ∀ (k : nat) c, cs !! k = Some c → (S k < length cs)%nat →
       MIN_CHUNK ≤ orig_size c).
Proof.
  apply (planner_bounds 200000 3 (stream_of []) (world0 ∅)).
  - unfold STREAM_MAX. lia.
  - unfold INT_MAX. lia.
Defined.

(** ** The chunks are the slices of the file *)

Lemma extract_take data n :
  0 ≤ n ≤ len data →
  extract (stream_of data) n
  = (take (Z.to_nat n) data, stream_of (drop (Z.to_nat n) data)).
Proof.
  intros Hn. unfold extract, stream_of. cbn [good rest].
  destruct (Z.ltb_spec n 0); [lia|].
  destruct (Z.leb_spec n (len data)); [done | lia].
Qed.

Section Slices.
Context (ideal total : Z).
Hypothesis ideal_pos : 0 < ideal.
Hypothesis ideal_le : ideal ≤ total.
Hypothesis total_max : total ≤ STREAM_MAX.

Lemma read_chunks_slices fuel : ∀ i data,
  0 ≤ i → i * ideal ≤ total → len data = total - i * ideal →
  Forall (λ c, i * ideal ≤ start c
               ∧ 0 < orig_size c
               ∧ len (bytes c) = orig_size c
               ∧ bytes c = take (Z.to_nat (orig_size c))
                                (drop (Z.to_nat (start c - i * ideal)) data))
         (value_of (read_chunks fuel i ideal total (stream_of data))).1.
Proof.
  induction fuel as [|fuel IH]; intros i data Hi Hlo Hlen; [constructor|].
  unfold STREAM_MAX in total_max.
  destruct (Z.eq_dec (i * ideal) total) as [Heq|Hne].
  { rewrite (read_chunks_past ideal total) by lia. constructor. }
  cbn [read_chunks]. rewrite u64_small by nia.
  destruct (Z.leb_spec total (i * ideal)); [lia|].
  set (sz := Z.min ideal (total - i * ideal)).
  assert (0 < sz ≤ len data) as Hsz by lia.
  rewrite i64_small by lia.
  rewrite value_of_bind by solve_logger.
  rewrite value_of_ifstream_read, extract_take by lia. cbn [fst snd].
  assert (length (take (Z.to_nat sz) data) = Z.to_nat sz) as Lf
    by (rewrite length_take; unfold len in Hsz; lia).
  rewrite blit_exact by (unfold vresize; rewrite length_resize; lia).
  cbv beta iota.
  rewrite value_of_bind by solve_logger.
  destruct (value_of (read_chunks fuel (i + 1) ideal total
                        (stream_of (drop (Z.to_nat sz) data))))
    as [cs s2] eqn:E.
  rewrite value_of_ret. cbn [fst].
  constructor.
  { cbn. split; [lia|]. split; [lia|]. split; [unfold len; lia|].
    replace (i * ideal - i * ideal) with 0 by lia. done. }
  destruct (Z.le_gt_cases ((i + 1) * ideal) total) as [Hn|Hn].
  - assert (sz = ideal) as Hsi by lia.
    specialize (IH (i + 1) (drop (Z.to_nat sz) data)). rewrite E in IH.
    eapply Forall_impl;
      [apply IH; [lia | lia | unfold len in *; rewrite length_drop; lia]|].
    cbn. intros c (Hs & Hp & Hl & Hb). split; [lia|]. split; [done|].
    split; [done|]. rewrite Hb, drop_drop. do 2 f_equal. lia.
  - rewrite (read_chunks_past ideal total) in E by lia.
    rewrite value_of_ret in E. injection E as <- _. constructor.
Qed.

End Slices.

(** X9. Each chunk of a file [B] holds exactly the bytes of its range:
    [orig_size] bytes of [B] from offset [start], never a short read and
    never padding. *)
Theorem chunks_are_slices B p :
  0 < len B ≤ STREAM_MAX → p ≤ INT_MAX →
  Forall (λ c, 0 < orig_size c
               ∧ len (bytes c) = orig_size c
               ∧ bytes c = take (Z.to_nat (orig_size c))
                                (drop (Z.to_nat (start c)) B))
         (value_of (split_input (len B) p (stream_of B))).1.
Proof.
  intros HB Hp. unfold split_input.
  destruct (chunk_layout_ok (len B) p HB Hp) as (ideal & k & -> & Hi & Hk & Hcov).
  eapply Forall_impl;
    [apply (read_chunks_slices ideal (len B)) with (i := 0); lia|].
  cbn. intros c (_ & Hp' & Hl & Hb). split; [done|]. split; [done|].
  rewrite Hb. do 3 f_equal. lia.
Qed.

Lemma chunks_are_slices_witness :
  let B := [x61; x62; x63] in
  Forall (λ c, 0 < orig_size c
               ∧ len (bytes c) = orig_size c
               ∧ bytes c = take (Z.to_nat (orig_size c))
                                (drop (Z.to_nat (start c)) B))
         (value_of (split_input (len B) 2 (stream_of B))).1.
Proof.
  intros B. apply (chunks_are_slices B 2).
  - unfold STREAM_MAX. vm_compute. split; [reflexivity | discriminate].
  - unfold INT_MAX. lia.
Defined.

(** ** The container that a compression run writes *)




Lemma total_compressed_slots (slots : list (list byte * ChunkMeta)) :
  Forall (λ slot, compressed_size slot.2 = len slot.1) slots →
  total_compressed slots.*2 = len (concat slots.*1).
Proof.
  induction 1 as [|[b m] ss Hs _ IH]; [done|].
  cbn [fmap list_fmap concat fst snd]. rewrite len_app, <- IH.
  cbn in Hs. rewrite <- Hs. done.
Qed.

(** X11. When zlib succeeds on every chunk, the container is
    self-describing: the i-th payload has exactly the [compressed_size]
    bytes its record declares, and the file is 16 + 16 N bytes of header
    followed by the sum of the declared sizes. *)
Theorem container_self_describing cd inpath outpath p w B :
  files w !! inpath = Some B → 0 < len B ≤ STREAM_MAX →
  writable w outpath = true →
  Forall (λ c, deflates cd c = true)
         (value_of (split_input (len B) p (stream_of B))).1 →
  ∃ w' metas payloads container,
    compress_file cd inpath outpath p w = (0, w')
    ∧ files w' !! outpath = Some container
    ∧ container = header_bytes metas ++ concat payloads
    ∧ Forall2 (λ m b, compressed_size m = len b) metas payloads
    ∧ len container = 16 + 16 * len metas + total_compressed metas.
Proof.
  intros Hin HB Hw Hok.
  pose proof (compress_file_cases cd inpath outpath p w) as H.
  rewrite Hin in H. cbv zeta in H. unfold STREAM_MAX in HB.
  rewrite i64_small, u64_small in H by lia.
  destruct (Z.eqb_spec (len B) 0); [lia|]. rewrite Hw in H.
  set (chunks := (value_of (split_input (len B) p (stream_of B))).1) in *.
  set (slots := imap (λ i c, value_of (compress_task cd i c)) chunks) in *.
  assert (Forall (λ slot, compressed_size slot.2 = len slot.1) slots) as Hs.
  { apply Forall_forall. intros slot Hslot.
    apply list_elem_of_lookup in Hslot as [i Hslot]. unfold slots in Hslot.
    rewrite list_lookup_imap in Hslot.
    destruct (chunks !! i) as [c|] eqn:Hc; [|done]. injection Hslot as <-.
    destruct (compress_task_slot cd i c) as [_ Hb]. cbv zeta in Hb.
    rewrite Forall_forall in Hok.
    assert (deflates cd c = true) as Hd
      by (apply Hok, list_elem_of_lookup; eauto).
    unfold deflates in Hd. by rewrite Hd in Hb. }
  eexists _, slots.*2, slots.*1, _. split; [exact H|]. cbn [files].
  split; [apply lookup_insert_eq|]. split; [done|]. split.
  - clear -Hs. induction Hs as [|[b m] ss Hb _ IH]; constructor; done.
  - rewrite len_app, len_header_bytes, total_compressed_slots by done. lia.
Qed.

Lemma container_self_describing_witness :
  let B := [x61; x62; x63] in
  let w := world0 {[ "in"%string := B ]} in
  ∃ w' metas payloads container,
    compress_file framed_codec "in" "out" 2 w = (0, w')
    ∧ files w' !! "out"%string = Some container
    ∧ container = header_bytes metas ++ concat payloads
    ∧ Forall2 (λ m b, compressed_size m = len b) metas payloads
    ∧ len container = 16 + 16 * len metas + total_compressed metas.
Proof.
  intros B w. apply (container_self_describing framed_codec "in" "out" 2 w B).
  - reflexivity.
  - unfold STREAM_MAX. vm_compute. split; [reflexivity | discriminate].
  - reflexivity.
  - vm_compute. repeat constructor.
Defined.

(** ** The tasks and the codec adapter *)

Lemma len_take_le (l : list byte) n : 0 ≤ n ≤ len l → len (take (Z.to_nat n) l) = n.
Proof. intros H. unfold len in *. rewrite length_take. lia. Qed.

(** X13. The codec adapter round-trips under the contract of the
    primitive, whatever the output vectors held before: [compress_chunk]
    succeeds and returns a block that [decompress_chunk], told the original
    length, turns back into the input, reporting success. *)
Theorem codec_adapter_roundtrip cd src level before before' :
  codec_roundtrip cd → len src ≤ STREAM_MAX →
  ∃ block,
    value_of (compress_chunk cd src before level) = (true, block)
    ∧ len block ≤ compressBound cd (len src)
    ∧ value_of (decompress_chunk cd block before' (len src)) = (true, src).
Proof.
  intros Hcd Hsrc.
  destruct (Hcd src level Hsrc) as (c & Hz & Hfit & Hmax & Hu).
  exists c.
  assert (value_of (compress_chunk cd src before level) = (true, c)) as Hc.
  { unfold value_of, compress_chunk, mbind, M_bind. cbn -[Z.eqb len].
    rewrite Hz. cbn -[Z.eqb len]. change (Z_OK =? Z_OK) with true. cbn.
    f_equal. rewrite blit_prefix.
    2:{ unfold vresize. rewrite length_resize. unfold len in *. lia. }
    apply vresize_prefix. }
  split; [done|]. split; [done|].
  unfold value_of, decompress_chunk, mbind, M_bind. cbn -[Z.eqb len].
  rewrite Hu. cbn -[Z.eqb len].
  change (Z_OK =? Z_OK) with true. rewrite Z.eqb_refl. cbn.
  f_equal. apply blit_exact. unfold vresize. rewrite length_resize.
  unfold len. lia.
Qed.

Lemma codec_adapter_roundtrip_witness :
  ∃ block,
    value_of (compress_chunk stored_codec [x61; x62] [xff; xff; xff] 9)
      = (true, block)
    ∧ len block ≤ compressBound stored_codec (len [x61; x62])
    ∧ value_of (decompress_chunk stored_codec block [x00] (len [x61; x62]))
      = (true, [x61; x62]).
Proof.
  apply (codec_adapter_roundtrip stored_codec [x61; x62] 9 [xff; xff; xff] [x00]).
  - exact stored_codec_roundtrip.
  - unfold STREAM_MAX. vm_compute. discriminate.
Defined.

(** ** How often zlib is called *)

Lemma codec_calls_tasks {A} (f : nat → A → list event) jobs :
  (∀ i j, codec_calls (f i j) = 1%nat) →
  codec_calls (concat (imap f jobs)) = length jobs.
Proof.
  revert f. induction jobs as [|j js IH]; intros f Hf; [done|].
  rewrite imap_cons. cbn [concat length].
  rewrite codec_calls_app, Hf, IH; [done|]. intros i x. apply Hf.
Qed.

Lemma compress_task_calls cd i c :
  codec_calls (events_of (compress_task cd i c)) = 1%nat.
Proof. rewrite compress_task_events. by destruct (_ =? Z_OK). Qed.

Lemma decompress_task_calls cd i j :
  codec_calls (events_of (decompress_task cd i j)) = 1%nat.
Proof.
  destruct j as [blk m].
  unfold events_of, decompress_task, decompress_chunk, mbind, M_bind.
  cbn -[Z.eqb len].
  destruct (uncompress cd (original_size m) blk) as [[ret written] n].
  cbn -[Z.eqb len].
  destruct (ret =? Z_OK); cbn -[Z.eqb len]; [|done].
  destruct (n =? original_size m); cbn -[Z.eqb len]; done.
Qed.

(** X14. A compression run that reaches the codec calls [compress2] once
    per chunk, so at least once and never more than max(1,
    threads_requested) times, whether or not the output can be opened
    afterwards. *)
Theorem compress_calls_bounded cd inpath outpath p w B :
  files w !! inpath = Some B → 0 < len B ≤ STREAM_MAX → p ≤ INT_MAX →
  ∃ evs,
    trace (compress_file cd inpath outpath p w).2 = trace w ++ evs
    ∧ codec_calls evs
      = length (value_of (split_input (len B) p (stream_of B))).1
    ∧ (1 ≤ codec_calls evs)%nat
    ∧ Z.of_nat (codec_calls evs) ≤ Z.max 1 p.
Proof.
  intros Hin HB Hp.
  pose proof (compress_file_cases cd inpath outpath p w) as H.
  rewrite Hin in H. cbv zeta in H.
  assert (u64 (i64 (len B)) = len B) as Ht
    by (unfold STREAM_MAX in HB; rewrite i64_small, u64_small; lia).
  rewrite Ht in H. destruct (Z.eqb_spec (len B) 0); [lia|].
  set (chunks := (value_of (split_input (len B) p (stream_of B))).1) in *.
  set (evs := events_of (split_input (len B) p (stream_of B))
              ++ concat (imap (λ i c, events_of (compress_task cd i c)) chunks)) in *.
  assert (codec_calls evs = length chunks) as Hcalls.
  { unfold evs. rewrite codec_calls_app.
    destruct (quiet_split_input (len B) p (stream_of B)) as [_ ->].
    apply codec_calls_tasks. intros. apply compress_task_calls. }
  assert ((1 ≤ length chunks)%nat ∧ len chunks ≤ Z.max 1 p) as [Hlo Hhi].
  { destruct (chunk_count_le (len B) p HB Hp) as (Hle & _ & _).
    destruct (chunk_layout_ok (len B) p HB Hp) as (ideal & k & E & Hi & Hk & Hcov).
    assert (range <$> chunks = layout (Z.to_nat k) 0 ideal (len B)) as Hr.
    { unfold chunks, value_of, split_input. rewrite E. apply read_chunks_ranges. }
    rewrite E in Hle. cbn [snd] in Hle.
    unfold len at 1. rewrite <- (length_fmap range), Hr.
    pose proof (layout_length_le (Z.to_nat k) 0 ideal (len B)).
    split; [|lia].
    destruct (Z.to_nat k) as [|f] eqn:Ek; [lia|].
    unfold STREAM_MAX in HB.
    rewrite (layout_step ideal (len B)) by lia. cbn. lia. }
  destruct (writable w outpath); rewrite H; cbn [snd trace logged].
  - exists evs. unfold len in Hhi. rewrite Hcalls. split; [done|].
    split; [done|]. split; [done | lia].
  - exists (evs ++ [EvCerr FailedOpenOutput]).
    rewrite codec_calls_app, Hcalls. cbn. unfold len in Hhi.
    split; [done|]. split; [lia|]. split; lia.
Qed.

Lemma compress_calls_bounded_witness :
  let B := [x61; x62; x63] in
  let w := world0 {[ "in"%string := B ]} in
  ∃ evs,
    trace (compress_file framed_codec "in" "out" 8 w).2 = trace w ++ evs
    ∧ codec_calls evs
      = length (value_of (split_input (len B) 8 (stream_of B))).1
    ∧ (1 ≤ codec_calls evs)%nat
    ∧ Z.of_nat (codec_calls evs) ≤ Z.max 1 8.
Proof.
  intros B w. apply (compress_calls_bounded framed_codec "in" "out" 8 w B).
  - reflexivity.
  - unfold STREAM_MAX. vm_compute. split; [reflexivity | discriminate].
  - unfold INT_MAX. lia.
Defined.

(** X16. A compression task calls [compress2] once, on its own chunk, and
    always records the chunk's length as [original_size].  When the call
    returns [Z_OK] it logs nothing else and records the length of the block
    as [compressed_size]; otherwise it reports on [cerr] under its own
    index, records [compressed_size] 0, and leaves in its block slot the
    whole buffer of [compressBound] bytes. *)
Theorem compress_task_reports cd i c :
  let slot := value_of (compress_task cd i c) in
  original_size slot.2 = len (bytes c)
  ∧ if deflates cd c then
      events_of (compress_task cd i c) = [EvCompress2 (len (bytes c))]
      ∧ compressed_size slot.2 = len slot.1
    else
      events_of (compress_task cd i c)
      = [EvCompress2 (len (bytes c)); EvCerr (CompressionFailed i)]
      ∧ compressed_size slot.2 = 0
      ∧ len slot.1 = Z.max 0 (compressBound cd (len (bytes c))).
Proof.
  cbv zeta. destruct (compress_task_slot cd i c) as [Ho Hs].
  pose proof (compress_task_events cd i c) as He. cbv zeta in Hs.
  unfold deflates. split; [done|].
  destruct (_ =? Z_OK); [by split | by destruct Hs].
Qed.

(** * The decompression path with its exceptions *)

(** ** The guarded stages only log *)

Lemma fits_spec host n :
  fits host n = true ↔ n ≤ alloc_max host ∧ n ≤ STREAM_MAX.
Proof. unfold fits. rewrite andb_true_iff, !Z.leb_le. done. Qed.

Lemma logger_decompress_chunk_ex cd host inbuf outbuf expected :
  logger (decompress_chunk_ex cd host inbuf outbuf expected).
Proof. unfold decompress_chunk_ex. solve_logger. Qed.

Lemma logger_decompress_task_ex cd host i j :
  logger (decompress_task_ex cd host i j).
Proof.
  unfold decompress_task_ex.
  repeat first [apply logger_decompress_chunk_ex | logger_step].
Qed.

Lemma logger_read_header_ex host s : logger (read_header_ex host s).
Proof. unfold read_header_ex. solve_logger. Qed.

Lemma logger_read_blocks_ex host metas : ∀ i s,
  logger (read_blocks_ex host i metas s).
Proof.
  induction metas as [|m ms IH]; intros i s; cbn [read_blocks_ex].
  - apply logger_ret.
  - repeat first [apply IH | apply logger_ifstream_read | logger_step].
Qed.

Lemma logger_load_blocks_ex host metas s : logger (load_blocks_ex host metas s).
Proof.
  unfold load_blocks_ex. cbv zeta.
  destruct (negb _); [apply logger_ret | apply logger_read_blocks_ex].
Qed.

Lemma quiet_read_header_ex host s : quiet (read_header_ex host s).
Proof.
  unfold read_header_ex. repeat first [apply quiet_read_metas | quiet_step].
Qed.

Lemma quiet_read_blocks_ex host metas : ∀ i s,
  quiet (read_blocks_ex host i metas s).
Proof.
  induction metas as [|m ms IH]; intros i s; cbn [read_blocks_ex].
  - apply quiet_ret.
  - repeat first [apply IH | quiet_step].
Qed.

Lemma quiet_load_blocks_ex host metas s : quiet (load_blocks_ex host metas s).
Proof.
  unfold load_blocks_ex. cbv zeta.
  destruct (negb _); [apply quiet_ret | apply quiet_read_blocks_ex].
Qed.

Ltac solve_logger_ex :=
  intros;
  repeat first [ apply logger_read_blocks_ex | apply logger_read_header_ex
               | apply logger_load_blocks_ex | apply logger_decompress_task_ex
               | apply logger_decompress_chunk_ex | apply logger_ifstream_read
               | apply logger_read_metas | apply logger_read_blocks
               | apply logger_decompress_chunk | logger_step ].

(** ** The guarded readers against the plain ones *)

(** Where the guarded reader returns, the plain one returns the same. *)
Lemma read_header_ex_returned host s r s' :
  value_of (read_header_ex host s) = (Returned r, s') →
  value_of (read_header s) = (r, s').
Proof.
  unfold read_header_ex, read_header.
  rewrite !value_of_bind by solve_logger_ex.
  destruct (value_of (ifstream_read s _ 4)) as [g1 t1]. cbv beta iota.
  destruct (negb (good t1)); [rewrite !value_of_ret; by intros [= <- <-]|].
  destruct (negb (bool_decide _)); [rewrite !value_of_ret; by intros [= <- <-]|].
  rewrite !value_of_bind by solve_logger_ex.
  destruct (value_of (ifstream_read t1 _ 4)) as [g2 t2]. cbv beta iota.
  destruct (negb (good t2)); [rewrite !value_of_ret; by intros [= <- <-]|].
  destruct (negb (_ =? VERSION)); [rewrite !value_of_ret; by intros [= <- <-]|].
  rewrite !value_of_bind by solve_logger_ex.
  destruct (value_of (ifstream_read t2 _ 8)) as [g3 t3]. cbv beta iota.
  destruct (negb (good t3)); [rewrite !value_of_ret; by intros [= <- <-]|].
  destruct (negb (fits _ _)); [rewrite value_of_ret; intros [=]|].
  rewrite value_of_bind by solve_logger_ex.
  destruct (value_of (read_metas _ t3)) as [r4 t4]. cbv beta iota.
  rewrite value_of_ret. by intros [= <- <-].
Qed.

(** On a well-formed header the guarded reader throws exactly when the
    records do not fit. *)
Lemma read_header_ex_wf host metas tail :
  len metas < 2 ^ 64 → Forall meta_ok metas →
  value_of (read_header_ex host (stream_of (header_bytes metas ++ tail)))
  = if fits host (SIZEOF_CHUNKMETA * len metas)
    then (Returned (Some metas), stream_of tail)
    else (Thrown, stream_of (concat (meta_bytes <$> metas) ++ tail)).
Proof.
  intros Hn HF. unfold read_header_ex, header_bytes. rewrite <- !app_assoc.
  rewrite value_of_bind by solve_logger_ex.
  rewrite read_exact by done.
  cbv beta iota. cbn [good stream_of negb].
  rewrite bool_decide_eq_true_2 by done. cbn [negb].
  rewrite value_of_bind by solve_logger_ex.
  rewrite read_exact by done.
  cbv beta iota. cbn [good stream_of negb].
  change (le_value (le_bytes 4 VERSION) =? VERSION) with true. cbn [negb].
  rewrite value_of_bind by solve_logger_ex.
  rewrite read_exact by (unfold len; rewrite ?length_le_bytes; done).
  cbv beta iota. cbn [good stream_of negb].
  rewrite le_value_bytes
    by (change (8 * Z.of_nat 8) with 64; pose proof (len_nonneg metas); lia).
  destruct (fits host _); cbn [negb]; [|by rewrite value_of_ret].
  rewrite value_of_bind by solve_logger_ex.
  unfold len. rewrite Nat2Z.id, read_metas_ok by done.
  cbv beta iota. by rewrite value_of_ret.
Qed.

Lemma read_header_ex_sound host data metas s' :
  value_of (read_header_ex host (stream_of data)) = (Returned (Some metas), s') →
  data = header_bytes metas ++ rest s' ∧ s' = stream_of (rest s')
  ∧ len metas < 2 ^ 64 ∧ Forall meta_ok metas
  ∧ fits host (SIZEOF_CHUNKMETA * len metas) = true.
Proof.
  intros H. pose proof (read_header_ex_returned _ _ _ _ H) as Hp.
  destruct (read_header_sound _ _ _ Hp) as (D & G & Ln & Hm).
  split; [done|]. split; [destruct s'; cbn in G; by subst|].
  split; [done|]. split; [done|].
  rewrite D in H. rewrite read_header_ex_wf in H by done.
  destruct (fits _ _); [done | discriminate].
Qed.

Lemma read_blocks_ex_returned host metas : ∀ i s r s',
  value_of (read_blocks_ex host i metas s) = (Returned r, s') →
  value_of (read_blocks i metas s) = (r, s')
  ∧ (is_Some r → Forall (λ m, fits host (compressed_size m) = true) metas).
Proof.
  induction metas as [|m ms IH]; intros i s r s';
    cbn [read_blocks_ex read_blocks].
  { rewrite !value_of_ret. intros [= <- <-]. split; [done|]. constructor. }
  destruct (fits host (compressed_size m)) eqn:F; cbn [negb];
    [|rewrite value_of_ret; intros [=]].
  rewrite !value_of_bind by solve_logger_ex.
  destruct (value_of (ifstream_read s _ _)) as [blk t1]. cbv beta iota.
  destruct (negb (good t1)).
  { rewrite !value_of_bind by solve_logger_ex. rewrite !value_of_ret.
    intros [= <- <-]. split; [done|]. by intros [? ?]. }
  rewrite !value_of_bind by solve_logger_ex.
  destruct (value_of (read_blocks_ex host (S i) ms t1)) as [[r2|] t2] eqn:E2;
    cbv beta iota; rewrite value_of_ret; [|intros [=]].
  intros [= <- <-]. destruct (IH _ _ _ _ E2) as [-> Hf].
  cbv beta iota. rewrite value_of_ret. split; [done|].
  intros Hs. constructor; [done|]. apply Hf. destruct r2; [done|].
  by destruct Hs.
Qed.

(** Where every declared size fits, the guarded loop is the plain one. *)
Lemma read_blocks_ex_plain host metas :
  Forall (λ m, fits host (compressed_size m) = true) metas → ∀ i s,
  value_of (read_blocks_ex host i metas s)
  = (Returned (value_of (read_blocks i metas s)).1,
     (value_of (read_blocks i metas s)).2).
Proof.
  induction 1 as [|m ms F _ IH]; intros i s; cbn [read_blocks_ex read_blocks].
  { by rewrite !value_of_ret. }
  rewrite F. cbn [negb].
  rewrite !value_of_bind by solve_logger_ex.
  destruct (value_of (ifstream_read s _ _)) as [blk t1]. cbv beta iota.
  destruct (negb (good t1)).
  { rewrite !value_of_bind by solve_logger_ex. by rewrite !value_of_ret. }
  rewrite !value_of_bind by solve_logger_ex. rewrite IH.
  destruct (value_of (read_blocks (S i) ms t1)) as [r2 t2].
  cbv beta iota. by rewrite !value_of_ret.
Qed.

Lemma load_blocks_ex_returned host metas s r s' :
  value_of (load_blocks_ex host metas s) = (Returned r, s') →
  fits host (SIZEOF_VECTOR * len metas) = true
  ∧ value_of (read_blocks 0 metas s) = (r, s')
  ∧ (is_Some r → Forall (λ m, fits host (compressed_size m) = true) metas).
Proof.
  unfold load_blocks_ex. cbv zeta.
  destruct (fits host (SIZEOF_VECTOR * len metas)); cbn [negb];
    [|rewrite value_of_ret; intros [=]].
  intros H. split; [done|]. by apply read_blocks_ex_returned in H.
Qed.

Lemma load_blocks_ex_plain host metas s :
  fits host (SIZEOF_VECTOR * len metas) = true →
  Forall (λ m, fits host (compressed_size m) = true) metas →
  value_of (load_blocks_ex host metas s)
  = (Returned (value_of (read_blocks 0 metas s)).1,
     (value_of (read_blocks 0 metas s)).2).
Proof.
  intros F1 F2. unfold load_blocks_ex. cbv zeta. rewrite F1. cbn [negb].
  by apply read_blocks_ex_plain.
Qed.

(** ** The guarded tasks *)

Lemma decompress_task_ex_fits cd host i job :
  fits host (original_size job.2) = true →
  value_of (decompress_task_ex cd host i job)
  = Returned (value_of (decompress_task cd i job))
  ∧ events_of (decompress_task_ex cd host i job)
    = events_of (decompress_task cd i job).
Proof.
  intros F. destruct job as [blk m]. cbn [fst snd] in *.
  unfold events_of, value_of, decompress_task_ex, decompress_chunk_ex,
    decompress_task, decompress_chunk, mbind, M_bind.
  cbv zeta. cbn [fst snd]. rewrite F. cbn -[Z.eqb len].
  destruct (uncompress cd (original_size m) blk) as [[ret written] n].
  cbn -[Z.eqb len].
  destruct (ret =? Z_OK); cbn -[Z.eqb len]; [|done].
  destruct (n =? original_size m); cbn -[Z.eqb len]; done.
Qed.

Lemma decompress_task_ex_thrown cd host i job :
  fits host (original_size job.2) = false →
  value_of (decompress_task_ex cd host i job) = Thrown
  ∧ events_of (decompress_task_ex cd host i job) = [].
Proof.
  intros F.
  unfold events_of, value_of, decompress_task_ex, decompress_chunk_ex,
    mbind, M_bind.
  cbv zeta. rewrite F. done.
Qed.

Section ForkJoinEx.
Context {A B : Type} (host : Host) (task : nat → A → M (attempt B)).
Hypothesis task_logger : ∀ i j, logger (task i j).

Lemma logger_fork_join_ex jobs : ∀ i, logger (fork_join_ex host task i jobs).
Proof.
  induction jobs as [|j js IH]; intros i; cbn [fork_join_ex].
  - apply logger_ret.
  - repeat first [apply task_logger | apply IH | logger_step].
Qed.

End ForkJoinEx.

(** When the host grants every thread and every buffer, the guarded join
    is the plain one. *)
Lemma fork_join_ex_tasks cd host jobs : ∀ i,
  workers_start host i jobs →
  value_of (fork_join_ex host (decompress_task_ex cd host) i jobs)
  = Returned (imap (λ k j, value_of (decompress_task cd (i + k) j)) jobs)
  ∧ events_of (fork_join_ex host (decompress_task_ex cd host) i jobs)
    = concat (imap (λ k j, events_of (decompress_task cd (i + k) j)) jobs).
Proof.
  induction jobs as [|j js IH]; intros i [Ht Hf]; cbn [fork_join_ex]; [done|].
  inversion_clear Hf as [|? ? Fj Fjs].
  assert (len (j :: js) = 1 + len js) as Hl by (unfold len; cbn; lia).
  pose proof (len_nonneg js).
  destruct (Z.leb_spec (thread_max host) (Z.of_nat i)); [lia|].
  destruct (decompress_task_ex_fits cd host i j Fj) as [Vj Ej].
  destruct (IH (S i)) as [Vs Es]; [split; [lia|done]|].
  assert (∀ a, logger (match a with
                       | Returned r =>
                           rs ← fork_join_ex host (decompress_task_ex cd host) (S i) js;
                           mret (match rs with
                                 | Returned rs => Returned (r :: rs)
                                 | Thrown => Thrown
                                 end)
                       | Thrown => mret Thrown
                       end)) as Lk.
  { intros a.
    repeat first [apply logger_fork_join_ex | apply logger_decompress_task_ex
                 | logger_step]. }
  split.
  - rewrite value_of_bind by (try apply logger_decompress_task_ex; apply Lk).
    rewrite Vj.
    rewrite value_of_bind
      by (try (apply logger_fork_join_ex; apply logger_decompress_task_ex);
          intros; apply logger_ret).
    rewrite Vs, value_of_ret, imap_cons, Nat.add_0_r. f_equal. f_equal.
    apply imap_ext. intros k x _. cbn. by rewrite Nat.add_succ_r.
  - rewrite events_of_bind by (try apply logger_decompress_task_ex; apply Lk).
    rewrite Vj, Ej.
    rewrite events_of_bind
      by (try (apply logger_fork_join_ex; apply logger_decompress_task_ex);
          intros; apply logger_ret).
    rewrite Es, imap_cons, Nat.add_0_r. cbn [concat].
    unfold events_of at 3. cbn. rewrite app_nil_r. f_equal. f_equal.
    apply imap_ext. intros k x _. cbn. by rewrite Nat.add_succ_r.
Qed.

(** Otherwise an exception ends the join. *)
Lemma fork_join_ex_thrown cd host jobs : ∀ i,
  Z.of_nat i ≤ Z.max 0 (thread_max host) →
  ¬ workers_start host i jobs →
  value_of (fork_join_ex host (decompress_task_ex cd host) i jobs) = Thrown.
Proof.
  induction jobs as [|j js IH]; intros i Hi Hn; cbn [fork_join_ex].
  { exfalso. apply Hn. split; [unfold len; cbn; lia | constructor]. }
  assert (len (j :: js) = 1 + len js) as Hl by (unfold len; cbn; lia).
  destruct (Z.leb_spec (thread_max host) (Z.of_nat i)); [done|].
  assert (∀ a, logger (match a with
                       | Returned r =>
                           rs ← fork_join_ex host (decompress_task_ex cd host) (S i) js;
                           mret (match rs with
                                 | Returned rs => Returned (r :: rs)
                                 | Thrown => Thrown
                                 end)
                       | Thrown => mret Thrown
                       end)) as Lk.
  { intros a.
    repeat first [apply logger_fork_join_ex | apply logger_decompress_task_ex
                 | logger_step]. }
  rewrite value_of_bind by (try apply logger_decompress_task_ex; apply Lk).
  destruct (fits host (original_size j.2)) eqn:Fj.
  - destruct (decompress_task_ex_fits cd host i j Fj) as [-> _].
    rewrite value_of_bind
      by (try (apply logger_fork_join_ex; apply logger_decompress_task_ex);
          intros; apply logger_ret).
    rewrite IH; [done | lia |].
    intros [Ht Hf]. apply Hn. split; [lia | by constructor].
  - by destruct (decompress_task_ex_thrown cd host i j Fj) as [-> _].
Qed.

Lemma forallb_Forall {A} (f : A → bool) l :
  forallb f l = true ↔ Forall (λ x, f x = true) l.
Proof.
  induction l as [|x l IH]; cbn [forallb].
  - split; [constructor | done].
  - rewrite andb_true_iff, IH, Forall_cons. done.
Qed.

Lemma tasks_start_spec host (blocks : list (list byte)) metas :
  length blocks = length metas →
  tasks_start host metas = true ↔ workers_start host 0 (zip blocks metas).
Proof.
  intros Hl. unfold tasks_start, workers_start.
  rewrite andb_true_iff, Z.leb_le, forallb_Forall.
  assert (len (zip blocks metas) = len metas) as ->
    by (unfold len; rewrite length_zip; lia).
  rewrite <- (snd_zip blocks metas) at 2 by lia.
  rewrite Forall_fmap. cbn [Z.of_nat]. rewrite Z.add_0_l. done.
Qed.

(** ** Every outcome of the guarded driver *)

Lemma decompress_file_ex_cases cd host inpath outpath t w :
  let run := decompress_file_ex cd host inpath outpath t w in
  match files w !! inpath with
  | None => run = (Exit 1, logged w [EvCerr CannotOpenCompressed])
  | Some data =>
      let eh := events_of (read_header_ex host (stream_of data)) in
      match value_of (read_header_ex host (stream_of data)) with
      | (Thrown, _) => run = (Aborted, logged w eh)
      | (Returned None, _) =>
          run = (Exit 1, logged w (eh ++ [EvCerr InvalidHeader]))
      | (Returned (Some metas), s1) =>
          let eb := events_of (load_blocks_ex host metas s1) in
          match value_of (load_blocks_ex host metas s1) with
          | (Thrown, _) => run = (Aborted, logged w (eh ++ eb))
          | (Returned None, _) => run = (Exit 1, logged w (eh ++ eb))
          | (Returned (Some blocks), _) =>
              let join := fork_join_ex host (decompress_task_ex cd host) 0
                            (zip blocks metas) in
              let et := events_of join in
              match value_of join with
              | Thrown => run = (Aborted, logged w (eh ++ eb ++ et))
              | Returned slots =>
                  if writable w outpath then
                    run = (Exit 0,
                           {| files := <[outpath := concat slots]> (files w);
                              writable := writable w;
                              trace := trace w ++ eh ++ eb ++ et |})
                  else
                    run = (Exit 1,
                           logged w (eh ++ eb ++ et ++ [EvCerr FailedOpenOutput]))
              end
          end
      end
  end.
Proof.
  cbv zeta.
  unfold decompress_file_ex, ifstream_open, mbind, M_bind. cbv beta iota.
  destruct (files w !! inpath) as [data|] eqn:Hin; [|reflexivity].
  cbn [fmap option_fmap option_map]. cbv beta iota zeta.
  fold (stream_of data).
  rewrite (logger_read_header_ex host _ w).
  destruct (value_of (read_header_ex host (stream_of data)))
    as [[[metas|]|] s1].
  3:{ reflexivity. }
  2:{ unfold cerr, emit, mret, M_ret, logged. cbn [files writable trace].
      f_equal. f_equal. by rewrite <- app_assoc. }
  rewrite (logger_load_blocks_ex host _ _ _).
  destruct (value_of (load_blocks_ex host metas s1)) as [[[blocks|]|] s2].
  3:{ unfold mret, M_ret. by rewrite logged_logged. }
  2:{ unfold mret, M_ret. by rewrite logged_logged. }
  rewrite (logger_fork_join_ex host _ (logger_decompress_task_ex cd host) _ 0 _).
  destruct (value_of (fork_join_ex host _ 0 (zip blocks metas))) as [slots|].
  2:{ unfold mret, M_ret. by rewrite !logged_logged. }
  destruct (writable w outpath) eqn:Hw.
  - rewrite ofstream_open_ok by done. rewrite write_blocks_run.
    unfold mret, M_ret, appended, logged. cbn [files writable trace].
    f_equal. f_equal; [by rewrite alter_insert_eq | by rewrite <- !app_assoc].
  - unfold ofstream_open. cbn [writable logged]. rewrite Hw.
    unfold mbind, M_bind, mret, M_ret, cerr, emit, logged.
    cbn [files writable trace]. f_equal. f_equal. by rewrite <- !app_assoc.
Qed.

(** Past the loads: the workers, then the output. *)
Lemma decompress_file_ex_loaded cd host inpath outpath t w data metas s1 blocks s2 :
  files w !! inpath = Some data →
  value_of (read_header_ex host (stream_of data)) = (Returned (Some metas), s1) →
  value_of (load_blocks_ex host metas s1) = (Returned (Some blocks), s2) →
  let run := decompress_file_ex cd host inpath outpath t w in
  let jobs := zip blocks metas in
  let eh := events_of (read_header_ex host (stream_of data)) in
  let eb := events_of (load_blocks_ex host metas s1) in
  let et := concat (imap (λ i j, events_of (decompress_task cd i j)) jobs) in
  length blocks = length metas
  ∧ if tasks_start host metas then
      if writable w outpath then
        run = (Exit 0,
               {| files := <[outpath := concat (imap (λ i j,
                              value_of (decompress_task cd i j)) jobs)]> (files w);
                  writable := writable w;
                  trace := trace w ++ eh ++ eb ++ et |})
      else run = (Exit 1, logged w (eh ++ eb ++ et ++ [EvCerr FailedOpenOutput]))
    else ∃ evs, run = (Aborted, logged w evs).
Proof.
  intros Hin Hh Hb. cbv zeta.
  assert (length blocks = length metas) as Hlen.
  { destruct (load_blocks_ex_returned _ _ _ _ _ Hb) as (_ & Hp & _).
    unfold value_of in Hp.
    destruct (read_blocks 0 metas s1 _) as [[r s] w1] eqn:E.
    cbn in Hp. injection Hp as -> ->. eapply read_blocks_length, E. }
  split; [done|].
  pose proof (decompress_file_ex_cases cd host inpath outpath t w) as H.
  cbv zeta in H. rewrite Hin, Hh, Hb in H.
  pose proof (tasks_start_spec host blocks metas Hlen) as Hs.
  destruct (tasks_start host metas).
  - destruct (fork_join_ex_tasks cd host (zip blocks metas) 0) as [V E];
      [by apply Hs|].
    rewrite V, E in H. exact H.
  - rewrite fork_join_ex_thrown in H; [by eexists | lia |].
    intros Hw. by apply Hs in Hw.
Qed.

(** C9. When the header and every declared payload have been read, one of
    two things happens.  If the host grants a thread per chunk and a buffer
    of each declared original size, the run returns 0 and the output file is
    the concatenation of the buffers of the tasks; its length is the sum of
    the [original_size] fields of the header, whether or not zlib succeeds
    on the chunks.  Otherwise an exception ends the process before the
    output is opened, and no file is written. *)
Theorem decompress_output_length cd host inpath outpath t w data metas s1 blocks s2 :
  files w !! inpath = Some data →
  value_of (read_header_ex host (stream_of data)) = (Returned (Some metas), s1) →
  value_of (load_blocks_ex host metas s1) = (Returned (Some blocks), s2) →
  writable w outpath = true →
  let r := decompress_file_ex cd host inpath outpath t w in
  if tasks_start host metas then
    ∃ out, r.1 = Exit 0
      ∧ files r.2 = <[outpath := out]> (files w)
      ∧ out = concat (imap (λ i j, value_of (decompress_task cd i j))
                           (zip blocks metas))
      ∧ len out = total_original metas
  else r.1 = Aborted ∧ files r.2 = files w.
Proof.
  intros Hin Hh Hb Hout. cbv zeta.
  destruct (decompress_file_ex_loaded cd host inpath outpath t w data metas
              s1 blocks s2 Hin Hh Hb) as [Hlen H].
  cbv zeta in H. rewrite Hout in H.
  destruct (tasks_start host metas).
  - rewrite H. eexists. split; [done|]. split; [done|]. split; [done|].
    transitivity (total_original (zip blocks metas).*2);
      [|by rewrite snd_zip by lia].
    apply (decompressed_length cd (zip blocks metas) 0).
    destruct (read_header_ex_sound _ _ _ _ Hh) as (_ & _ & _ & Hm & _).
    rewrite Forall_forall in Hm. apply Forall_forall.
    intros [b m] Hbm. apply elem_of_zip_r in Hbm. cbn. by apply Hm.
  - destruct H as [evs ->]. done.
Qed.

Lemma decompress_output_length_witness :
  let metas := [{| compressed_size := 2; original_size := 1 |}] in
  let data := header_bytes metas ++ [xff; xff] in
  let w := world0 {[ "c.mtcz"%string := data ]} in
  let r := decompress_file_ex framed_codec small_host "c.mtcz" "out" 4 w in
  ∃ out, r.1 = Exit 0
    ∧ files r.2 = <["out"%string := out]> (files w)
    ∧ out = concat (imap (λ i j, value_of (decompress_task framed_codec i j))
                         (zip [[xff; xff]] metas))
    ∧ len out = total_original metas.
Proof.
  intros metas data w.
  apply (decompress_output_length framed_codec small_host "c.mtcz" "out" 4 w
           data metas (stream_of [xff; xff]) [[xff; xff]] (stream_of [])).
  - reflexivity.
  - vm_compute. reflexivity.
  - vm_compute. reflexivity.
  - reflexivity.
Defined.

(** Headers that end the process on every host: a declared original size
    of 2^63 (the buffer is larger than any vector), a count of 2^64-1 (so is
    the vector of records), and a declared compressed size of 2^63. *)
Example oversized_declarations_abort :
  let run data :=
    decompress_file_ex framed_codec large_host "c" "out" 1
      (world0 {[ "c"%string := data ]}) in
  let unchanged (r : status * World) data :=
    r.1 = Aborted ∧ files r.2 = {[ "c"%string := data ]} in
  let d1 := header_bytes [{| compressed_size := 2; original_size := 2 ^ 63 |}]
              ++ [xff; xff] in
  let d2 := MAGIC ++ le_bytes 4 VERSION ++ le_bytes 8 (2 ^ 64 - 1) in
  let d3 := header_bytes [{| compressed_size := 2 ^ 63; original_size := 1 |}]
              ++ [xff; xff] in
  unchanged (run d1) d1 ∧ unchanged (run d2) d2 ∧ unchanged (run d3) d3.
Proof. vm_compute. repeat split. Qed.

(** ** The guarded task *)

(** X12. A decompression task whose declared original size the host cannot
    grant throws before it calls [uncompress] and logs nothing.  Otherwise
    it calls [uncompress] once, on its own block; it reports on [cerr],
    under its own index, exactly when zlib does not return [Z_OK] or leaves
    a length other than the declared original size; either way the buffer
    it hands over has the declared size. *)
Theorem decompress_task_reports cd host i job :
  if fits host (original_size job.2) then
    ∃ out, value_of (decompress_task_ex cd host i job) = Returned out
      ∧ len out = Z.max 0 (original_size job.2)
      ∧ events_of (decompress_task_ex cd host i job)
        = EvUncompress (len job.1)
            :: (if inflates cd job then []
                else [EvCerr (DecompressionFailed i)])
  else
    value_of (decompress_task_ex cd host i job) = Thrown
    ∧ events_of (decompress_task_ex cd host i job) = [].
Proof.
  destruct (fits host (original_size job.2)) eqn:F;
    [|by apply decompress_task_ex_thrown].
  destruct (decompress_task_ex_fits cd host i job F) as [-> ->].
  eexists. split; [done|].
  destruct job as [blk m]. cbn [fst snd].
  unfold events_of, value_of, inflates, decompress_task, decompress_chunk,
    mbind, M_bind.
  cbn -[Z.eqb len].
  destruct (uncompress cd (original_size m) blk) as [[ret written] n].
  assert (len (blit written (vresize (original_size m) []))
          = Z.max 0 (original_size m)) as Hlen
    by (unfold len at 1; rewrite length_blit; apply len_vresize).
  cbn -[Z.eqb len].
  destruct (ret =? Z_OK); cbn -[Z.eqb len]; [|done].
  destruct (n =? original_size m); cbn -[Z.eqb len]; done.
Qed.

(** ** How often [uncompress] is called *)

(** X15. A decompression run whose header and payloads load, on a host
    that grants a thread per chunk and a buffer of each declared original
    size, calls [uncompress] exactly as many times as the header declares
    chunks, whatever thread count was asked for and whether or not the
    output can be opened afterwards. *)
Theorem decompress_calls_match_header cd host inpath outpath t w data metas s1 blocks s2 :
  files w !! inpath = Some data →
  value_of (read_header_ex host (stream_of data)) = (Returned (Some metas), s1) →
  value_of (load_blocks_ex host metas s1) = (Returned (Some blocks), s2) →
  tasks_start host metas = true →
  ∃ evs,
    trace (decompress_file_ex cd host inpath outpath t w).2 = trace w ++ evs
    ∧ codec_calls evs = length metas.
Proof.
  intros Hin Hh Hb Hs.
  destruct (decompress_file_ex_loaded cd host inpath outpath t w data metas
              s1 blocks s2 Hin Hh Hb) as [Hlen H].
  cbv zeta in H. rewrite Hs in H.
  assert (codec_calls
            (events_of (read_header_ex host (stream_of data))
             ++ events_of (load_blocks_ex host metas s1)
             ++ concat (imap (λ i j, events_of (decompress_task cd i j))
                             (zip blocks metas)))
          = length metas) as Hcalls.
  { rewrite !codec_calls_app.
    destruct (quiet_read_header_ex host (stream_of data)) as [_ ->].
    destruct (quiet_load_blocks_ex host metas s1) as [_ ->].
    rewrite codec_calls_tasks by (intros; apply decompress_task_calls).
    rewrite length_zip. lia. }
  destruct (writable w outpath); rewrite H; cbn [snd trace logged].
  - eexists. split; [reflexivity | exact Hcalls].
  - eexists. split; [reflexivity|].
    rewrite !app_assoc, codec_calls_app, <- !app_assoc, Hcalls. cbn. lia.
Qed.

Lemma decompress_calls_match_header_witness :
  let metas := [{| compressed_size := 3; original_size := 2 |};
                {| compressed_size := 1; original_size := 0 |}] in
  let data := header_bytes metas ++ [x78; x68; x69; x78] in
  let w := world0 {[ "c"%string := data ]} in
  ∃ evs,
    trace (decompress_file_ex framed_codec small_host "c" "out" 16 w).2
    = trace w ++ evs
    ∧ codec_calls evs = length metas.
Proof.
  intros metas data w.
  apply (decompress_calls_match_header framed_codec small_host "c" "out" 16 w
           data metas (stream_of [x78; x68; x69; x78]) [[x78; x68; x69]; [x78]]
           (stream_of [])).
  - reflexivity.
  - vm_compute. reflexivity.
  - vm_compute. reflexivity.
  - vm_compute. reflexivity.
Defined.

(** ** Damaged and extended containers *)

Lemma container_fits_spec host metas :
  container_fits host metas = true
  ↔ fits host (SIZEOF_CHUNKMETA * len metas) = true
    ∧ fits host (SIZEOF_VECTOR * len metas) = true
    ∧ Forall (λ m, fits host (compressed_size m) = true) metas.
Proof.
  unfold container_fits. rewrite !andb_true_iff, forallb_Forall. tauto.
Qed.

(** X6. A container that has a well-formed header but fewer payload bytes
    than its metadata declares never reaches zlib and leaves the file
    system as it was (no output file): the run returns 1 when the host
    grants the vectors the header asks for, and otherwise returns 1 or is
    ended by the exception of a [resize]. *)
Theorem truncated_payload_rejected cd host inpath outpath t w metas payload :
  files w !! inpath = Some (header_bytes metas ++ payload) →
  len metas < 2 ^ 64 → Forall meta_ok metas →
  len payload < total_compressed metas →
  let r := decompress_file_ex cd host inpath outpath t w in
  ∃ evs, r.2 = logged w evs
    ∧ codec_calls evs = 0%nat
    ∧ (r.1 = Exit 1 ∨ r.1 = Aborted)
    ∧ (container_fits host metas = true → r.1 = Exit 1).
Proof.
  intros Hin Hn Hm Hshort. cbv zeta.
  pose proof (decompress_file_ex_cases cd host inpath outpath t w) as H.
  cbv zeta in H. rewrite Hin in H.
  rewrite read_header_ex_wf in H by done.
  destruct (quiet_read_header_ex host
              (stream_of (header_bytes metas ++ payload))) as [_ Qh].
  destruct (fits host (SIZEOF_CHUNKMETA * len metas)) eqn:F1.
  2:{ rewrite H. eexists. split; [done|]. split; [done|]. split; [by right|].
      rewrite container_fits_spec. intros (F & _). congruence. }
  destruct (quiet_load_blocks_ex host metas (stream_of payload)) as [_ Qb].
  destruct (value_of (load_blocks_ex host metas (stream_of payload)))
    as [[[blocks|]|] s2] eqn:E.
  - exfalso. destruct (load_blocks_ex_returned _ _ _ _ _ E) as (_ & Hp & _).
    destruct (read_blocks_sound _ _ _ _ _ Hm Hp) as (D & _ & F).
    apply len_concat_blocks in F.
    assert (len payload = len (concat blocks) + len (rest s2)) as Hlen
      by (rewrite D at 1; apply len_app).
    pose proof (len_nonneg (rest s2)). lia.
  - rewrite H. eexists. split; [done|].
    rewrite codec_calls_app, Qh, Qb. split; [done|]. split; [by left|done].
  - rewrite H. eexists. split; [done|].
    rewrite codec_calls_app, Qh, Qb. split; [done|]. split; [by right|].
    rewrite container_fits_spec. intros (_ & F2 & F3).
    rewrite load_blocks_ex_plain in E by done. discriminate.
Qed.

Lemma truncated_payload_rejected_witness :
  let metas := [{| compressed_size := 5; original_size := 9 |}] in
  let w := world0 {[ "short.mtcz"%string := header_bytes metas ++ [x78; x01] ]} in
  let r := decompress_file_ex framed_codec small_host "short.mtcz" "out" 2 w in
  ∃ evs, r.2 = logged w evs
    ∧ codec_calls evs = 0%nat
    ∧ (r.1 = Exit 1 ∨ r.1 = Aborted)
    ∧ (container_fits small_host metas = true → r.1 = Exit 1).
Proof.
  intros metas w.
  apply (truncated_payload_rejected framed_codec small_host "short.mtcz" "out"
           2 w metas [x78; x01]).
  - reflexivity.
  - vm_compute. reflexivity.
  - repeat constructor; cbn; lia.
  - vm_compute. reflexivity.
Defined.

(** X7. Bytes that follow the last declared payload are ignored: if the
    header and the payloads of a file load, they load from the same file
    with anything appended, and the two runs end alike: both return 0 and
    write the same output, or, on a host that does not grant the workers
    their threads and buffers, both are ended by the exception and write
    nothing. *)
Theorem trailing_bytes_ignored cd host inpath outpath t w w' data extra metas s1 blocks s2 :
  files w !! inpath = Some data →
  files w' !! inpath = Some (data ++ extra) →
  value_of (read_header_ex host (stream_of data)) = (Returned (Some metas), s1) →
  value_of (load_blocks_ex host metas s1) = (Returned (Some blocks), s2) →
  writable w outpath = true → writable w' outpath = true →
  let r := decompress_file_ex cd host inpath outpath t w in
  let r' := decompress_file_ex cd host inpath outpath t w' in
  if tasks_start host metas then
    r.1 = Exit 0 ∧ r'.1 = Exit 0
    ∧ ∃ out, files r.2 !! outpath = Some out ∧ files r'.2 !! outpath = Some out
  else
    r.1 = Aborted ∧ r'.1 = Aborted
    ∧ files r.2 = files w ∧ files r'.2 = files w'.
Proof.
  intros Hin Hin' Hh Hb Hw Hw'. cbv zeta.
  destruct (read_header_ex_sound _ _ _ _ Hh) as (D1 & Hs1 & Ln & Hm & F1).
  destruct (load_blocks_ex_returned _ _ _ _ _ Hb) as (F2 & Hp & F3).
  rewrite Hs1 in Hp.
  destruct (read_blocks_sound _ _ _ _ _ Hm Hp) as (D2 & G2 & F).
  assert (data ++ extra
          = header_bytes metas ++ concat blocks ++ (rest s2 ++ extra)) as D'
    by (rewrite D1 at 1; rewrite D2 at 1; by rewrite <- !app_assoc).
  assert (value_of (read_header_ex host (stream_of (data ++ extra)))
          = (Returned (Some metas),
             stream_of (concat blocks ++ (rest s2 ++ extra)))) as Hh'.
  { rewrite D', read_header_ex_wf by done. by rewrite F1. }
  assert (value_of (load_blocks_ex host metas
                      (stream_of (concat blocks ++ (rest s2 ++ extra))))
          = (Returned (Some blocks), stream_of (rest s2 ++ extra))) as Hb'.
  { rewrite load_blocks_ex_plain by (try done; by apply F3).
    by rewrite read_blocks_ok. }
  destruct (decompress_file_ex_loaded cd host inpath outpath t w data metas
              s1 blocks s2 Hin Hh Hb) as [_ R].
  destruct (decompress_file_ex_loaded cd host inpath outpath t w' _ metas
              _ blocks _ Hin' Hh' Hb') as [_ R'].
  cbv zeta in R, R'. rewrite Hw in R. rewrite Hw' in R'.
  destruct (tasks_start host metas).
  - rewrite R, R'. cbn [fst snd files].
    split; [done|]. split; [done|]. eexists.
    rewrite !lookup_insert_eq. done.
  - destruct R as [evs ->]. destruct R' as [evs' ->]. done.
Qed.

Lemma trailing_bytes_ignored_witness :
  let metas := [{| compressed_size := 3; original_size := 2 |}] in
  let data := header_bytes metas ++ [x78; x68; x69] in
  let w := world0 {[ "c"%string := data ]} in
  let w' := world0 {[ "c"%string := data ++ [x00; xff] ]} in
  let r := decompress_file_ex framed_codec small_host "c" "out" 1 w in
  let r' := decompress_file_ex framed_codec small_host "c" "out" 1 w' in
  r.1 = Exit 0 ∧ r'.1 = Exit 0
  ∧ ∃ out, files r.2 !! "out"%string = Some out
         ∧ files r'.2 !! "out"%string = Some out.
Proof.
  intros metas data w w'.
  apply (trailing_bytes_ignored framed_codec small_host "c" "out" 1 w w' data
           [x00; xff] metas (stream_of [x78; x68; x69]) [[x78; x68; x69]]
           (stream_of [])).
  - reflexivity.
  - reflexivity.
  - vm_compute. reflexivity.
  - vm_compute. reflexivity.
  - reflexivity.
  - reflexivity.
Defined.

(** ** Every way a decompression can end *)

Lemma decompress_file_ex_summary cd host inpath outpath t w :
  let r := decompress_file_ex cd host inpath outpath t w in
  ((r.1 = Exit 0 ∧ ∃ out, files r.2 = <[outpath := out]> (files w))
   ∨ ((r.1 = Exit 1 ∨ r.1 = Aborted) ∧ files r.2 = files w))
  ∧ writable r.2 = writable w
  ∧ ∃ evs, trace r.2 = trace w ++ evs.
Proof.
  cbv zeta.
  pose proof (decompress_file_ex_cases cd host inpath outpath t w) as H.
  cbv zeta in H.
  destruct (files w !! inpath) as [data|].
  2:{ rewrite H. cbn. split; [right|]; eauto. }
  destruct (value_of (read_header_ex host (stream_of data)))
    as [[[metas|]|] s1];
    [|rewrite H; cbn; split; [right|]; eauto..].
  destruct (value_of (load_blocks_ex host metas s1)) as [[[blocks|]|] s2];
    [|rewrite H; cbn; split; [right|]; eauto..].
  destruct (value_of (fork_join_ex host _ 0 (zip blocks metas))) as [slots|];
    [|rewrite H; cbn; split; [right|]; eauto].
  destruct (writable w outpath); rewrite H; cbn.
  - split; [left|]; eauto.
  - split; [right|]; eauto.
Qed.

(** X2. Whatever the input file, the codec, the host and the thread count,
    a decompression returns 0, returns 1, or is ended by an exception that
    nothing catches.  Unless it returns 0 the file system is exactly as
    before (nothing was written, not even an empty output file); when it
    returns 0 the only path that changed is the output path; the run only
    adds to the trace. *)
Theorem decompress_file_outcome cd host inpath outpath t w :
  let r := decompress_file_ex cd host inpath outpath t w in
  (r.1 = Exit 0 ∨ r.1 = Exit 1 ∨ r.1 = Aborted)
  ∧ (r.1 ≠ Exit 0 → files r.2 = files w)
  ∧ (r.1 = Exit 0 → ∃ out, files r.2 = <[outpath := out]> (files w))
  ∧ writable r.2 = writable w
  ∧ ∃ evs, trace r.2 = trace w ++ evs.
Proof.
  cbv zeta.
  destruct (decompress_file_ex_summary cd host inpath outpath t w)
    as ([[H0 Hf] | [H1 Hf]] & Hw & Ht); cbv zeta in *.
  - split; [by left|]. split; [done|]. done.
  - split; [by right|]. split; [done|]. split; [|done].
    intros H0. rewrite H0 in H1. by destruct H1.
Qed.

(** ** The command line *)

Lemma compress_file_summary cd inpath outpath p w :
  let r := compress_file cd inpath outpath p w in
  (r.1 = 1 ∧ files r.2 = files w)
  ∨ (r.1 = 0 ∧ ∃ data, files r.2 = <[outpath := data]> (files w)).
Proof.
  cbv zeta. pose proof (compress_file_cases cd inpath outpath p w) as H.
  destruct (files w !! inpath) as [B|]; [|rewrite H; by left].
  cbv zeta in H. destruct (_ =? 0); [rewrite H; by left|].
  destruct (writable w outpath); rewrite H; [right | by left].
  cbn. eauto.
Qed.

(** X3. With fewer than five arguments [main] prints the usage and returns
    1.  With five or more, a fifth argument that [std::stoi] rejects ends
    the process by its exception, whatever the mode: no usage message, no
    diagnostic of the program, no file touched.  With a thread count that
    [std::stoi] accepts, a
    mode other than "c" and "d" prints the usage and returns 1.  So [main]
    returns 0, returns 1 or is ended by an exception; unless it returns 0
    the file system is as before; when it returns 0 the mode was "c" or
    "d", the thread count was accepted, and only the path given as output
    changed. *)
Theorem main_outcome cd host stoi argv w :
  let r := main cd host stoi argv w in
  (r.1 = Exit 0 ∨ r.1 = Exit 1 ∨ r.1 = Aborted)
  ∧ (r.1 ≠ Exit 0 → files r.2 = files w)
  ∧ (r.1 = Exit 0 → ∃ prog mode inp out a more data,
       argv = prog :: mode :: inp :: out :: a :: more
       ∧ (mode = "c"%string ∨ mode = "d"%string)
       ∧ is_Some (stoi a)
       ∧ files r.2 = <[out := data]> (files w))
  ∧ ((length argv < 5)%nat → r = (Exit 1, logged w [EvCerr Usage]))
  ∧ (∀ a, argv !! 4%nat = Some a → stoi a = None → r = (Aborted, w))
  ∧ (∀ mode a, argv !! 1%nat = Some mode → argv !! 4%nat = Some a →
       is_Some (stoi a) → mode ≠ "c"%string → mode ≠ "d"%string →
       r = (Exit 1, logged w [EvCerr Usage])).
Proof.
  cbv zeta.
  destruct argv as [|prog [|mode [|inp [|out [|a more]]]]];
    try (cbn; split_and!; eauto; try done; cbn; lia).
  unfold main. cbn [lookup list_lookup length].
  destruct (stoi a) as [n|] eqn:Hn.
  2:{ cbn. split_and!; eauto; try done.
      - lia.
      - intros mode' a' _ [= <-] [? ?]. congruence. }
  cbv zeta. set (threads := if n <=? 0 then 1 else n).
  destruct (bool_decide_reflect (mode = "c"%string)) as [Hc|Hc].
  { unfold mbind, M_bind.
    pose proof (compress_file_summary cd inp out threads w) as H.
    cbv zeta in H.
    destruct (compress_file cd inp out threads w) as [c w1].
    cbn [fst snd] in *. unfold mret, M_ret. cbn [fst snd].
    destruct H as [[-> Hf] | [-> [d Hf]]].
    - split_and!; eauto; try done; try lia.
      + intros a'. intros [= <-]. congruence.
      + intros mode' a' [= <-]. done.
    - split_and!; eauto; try done; try lia.
      + intros _. eexists _, _, _, _, _, _, _. split; [done|].
        split; [by left|]. split; [by eexists|]. exact Hf.
      + intros a'. intros [= <-]. congruence.
      + intros mode' a' [= <-]. done. }
  destruct (bool_decide_reflect (mode = "d"%string)) as [Hd|Hd].
  { destruct (decompress_file_ex_summary cd host inp out threads w)
      as ([[H0 [d Hf]] | [H1 Hf]] & _ & _); cbv zeta in *.
    - split_and!; eauto; try done; try lia.
      + intros _. eexists _, _, _, _, _, _, _. split; [done|].
        split; [by right|]. split; [by eexists|]. exact Hf.
      + intros a'. intros [= <-]. congruence.
      + intros mode' a' [= <-]. done.
    - split_and!; try done; try lia.
      + destruct H1 as [-> | ->]; eauto.
      + intros H0. rewrite H0 in H1. by destruct H1.
      + intros a'. intros [= <-]. congruence.
      + intros mode' a' [= <-]. done. }
  cbn. split_and!; eauto; try done; try lia.
  intros a'. intros [= <-]. congruence.
Qed.

(** The command line with arguments that are no thread count. *)
Example main_thread_count :
  let w := world0 {[ "in"%string := [x61] ]} in
  let run argv := main stored_codec small_host stoi_decimal argv w in
  run ["mtcompress"; "c"; "in"; "out"; "abc"]%string = (Aborted, w)
  ∧ run ["mtcompress"; "x"; "in"; "out"; ""]%string = (Aborted, w)
  ∧ run ["mtcompress"; "d"; "in"; "out"; "99999999999"]%string = (Aborted, w)
  ∧ run ["mtcompress"; "x"; "in"; "out"; "4"]%string
    = (Exit 1, logged w [EvCerr Usage])
  ∧ run ["mtcompress"; "c"; "in"; "out"]%string
    = (Exit 1, logged w [EvCerr Usage])
  ∧ (run ["mtcompress"; "c"; "in"; "out"; " -3 threads"]%string).1 = Exit 0.
Proof. vm_compute. repeat split. Qed.

(** C10. Decompression does not look at the thread count: [decompress_file]
    gives the same exit status and the same world (so the same output
    file) for any two values, with or without the exceptions of the host;
    and so does [main] in mode "d" for any two fifth arguments that
    [std::stoi] accepts. *)
Theorem decompress_ignores_threads cd host stoi inpath outpath w :
  (∀ t1 t2, decompress_file cd inpath outpath t1 w
            = decompress_file cd inpath outpath t2 w)
  ∧ (∀ t1 t2, decompress_file_ex cd host inpath outpath t1 w
              = decompress_file_ex cd host inpath outpath t2 w)
  ∧ (∀ prog a1 a2 n1 n2 more1 more2,
       stoi a1 = Some n1 → stoi a2 = Some n2 →
       main cd host stoi
            (prog :: "d"%string :: inpath :: outpath :: a1 :: more1) w
       = main cd host stoi
              (prog :: "d"%string :: inpath :: outpath :: a2 :: more2) w).
Proof.
  split; [reflexivity|]. split; [reflexivity|].
  intros prog a1 a2 n1 n2 more1 more2 H1 H2.
  unfold main. rewrite H1, H2. reflexivity.
Qed.

Lemma decompress_ignores_threads_witness :
  let metas := [{| compressed_size := 3; original_size := 2 |}] in
  let w := world0 {[ "c"%string := header_bytes metas ++ [x78; x68; x69] ]} in
  main framed_codec small_host stoi_decimal
       ["mtcompress"; "d"; "c"; "out"; "1"]%string w
  = main framed_codec small_host stoi_decimal
         ["mtcompress"; "d"; "c"; "out"; "64"; "more"]%string w.
Proof.
  intros metas w.
  apply (proj2 (proj2 (decompress_ignores_threads framed_codec small_host
                         stoi_decimal "c" "out" w))
           "mtcompress"%string "1"%string "64"%string 1 64 [] ["more"%string]).
  - vm_compute. reflexivity.
  - vm_compute. reflexivity.
Defined.

(** ** The runs that return *)






